(** * Verification of the pro forma engine of cost-calculator (calculations.py)

    Shallow embedding of [calculate_capex], [calculate_npv] and
    [calculate_pro_forma].  Floating-point numbers are modelled by exact
    rationals [Q]; a NaN cell of the DataFrame is [None].  A Python exception
    is an [Err] of the result type [res]. *)

From Stdlib Require Import ZArith QArith Qpower Qround Lqa List Bool Lia Sorted.
Import ListNotations.

Open Scope Q_scope.

(** ** Python exceptions and the error monad *)

Inductive exc : Type :=
  | ZeroDivisionError
  | KeyError
  | InvalidScenario. (* a domain error; calculations.py never raises it *)

Inductive res (A : Type) : Type :=
  | Ok (a : A)
  | Err (e : exc).
Arguments Ok {A} a.
Arguments Err {A} e.

Definition bind {A B : Type} (m : res A) (k : A -> res B) : res B :=
  match m with
  | Ok a => k a
  | Err e => Err e
  end.

Notation "'let*' x ':=' m 'in' k" := (bind m (fun x => k))
  (at level 200, x name, m at level 100, k at level 200).

Definition fmap_res {A B : Type} (g : A -> B) (m : res A) : res B :=
  match m with
  | Ok a => Ok (g a)
  | Err e => Err e
  end.

(** Python's [/] on floats raises on a zero divisor. *)
Definition py_div (x y : Q) : res Q :=
  if Qeq_bool y 0 then Err ZeroDivisionError else Ok (x / y).

(** ** Cells: float or NaN *)

Definition cellv := option Q.

(** Cell arithmetic keeps its results in lowest terms ([Qred], which changes
    no value) so that concrete tables evaluate quickly. *)
Definition lift2 (op : Q -> Q -> Q) (x y : cellv) : cellv :=
  match x, y with
  | Some a, Some b => Some (Qred (op a b))
  | _, _ => None
  end.

Definition fillna0 (x : cellv) : Q :=
  match x with Some a => a | None => 0 end.

(** ** Row labels and columns of the pro forma *)

Inductive Label : Type :=
  | Yr (y : Z)
  | NPVrow.

Definition label_eqb (a b : Label) : bool :=
  match a, b with
  | Yr x, Yr y => Z.eqb x y
  | NPVrow, NPVrow => true
  | _, _ => false
  end.

Inductive Col : Type :=
  | OperatingYear
  | SolarOutputNet | BESSNetOutput | GeneratorOutput | GeneratorFuelInput
  | LoadServed
  | DebtOutstandingYrStart | FederalITC
  | CapitalExpenditure | DebtContribution | EquityCapex
  | FuelUnitCost | SolarFixedOMRate | BatteryFixedOMRate
  | GeneratorFixedOMRate | GeneratorVariableOMRate | BOSFixedOMRate
  | SoftOMRate
  | FixedOMCost | FuelCost | VariableOMCost | TotalOperatingCosts
  | LCOE | Revenue | EBITDA
  | InterestExpense | DebtService | PrincipalPayment
  | DepreciationSchedule | DepreciationMACRS | TaxableIncome
  | InterestExpenseTax | TaxBenefitLiability | AfterTaxNetEquityCashFlow.

Scheme Equality for Col.

(** [_POWERFLOW_COLUMNS_TO_ASSIGN] and [_CALCULATE_TOTALS] *)
Definition _CALCULATE_TOTALS : list Col :=
  [SolarOutputNet; BESSNetOutput; GeneratorOutput; GeneratorFuelInput;
   LoadServed].

Definition _EXCLUDE_FROM_NPV : list Col :=
  [FuelUnitCost; SolarFixedOMRate; BatteryFixedOMRate; GeneratorFixedOMRate;
   GeneratorVariableOMRate; BOSFixedOMRate; SoftOMRate; LCOE;
   DebtOutstandingYrStart; DepreciationSchedule].

Definition col_in (c : Col) (cs : list Col) : bool := existsb (Col_beq c) cs.

(** ** The DataFrame: rows in index order, each a map from columns to cells *)

Definition Row := Col -> cellv.

Record Frame : Type := mkFrame {
  data : list (Label * Row);
  cols : list Col
}.

Definition rows (f : Frame) : list Label := map fst (data f).

Definition has_row (f : Frame) (l : Label) : bool := existsb (label_eqb l) (rows f).
Definition has_col (f : Frame) (c : Col) : bool := col_in c (cols f).

Definition add_col (cs : list Col) (c : Col) : list Col :=
  if col_in c cs then cs else cs ++ [c].

Definition set_in_row (r : Row) (c : Col) (v : cellv) : Row :=
  fun c' => if Col_beq c c' then v else r c'.

Fixpoint assoc (l : Label) (d : list (Label * Row)) : option Row :=
  match d with
  | [] => None
  | (l', r) :: d' => if label_eqb l l' then Some r else assoc l d'
  end.

(** Value of a cell; NaN where the row or the column is absent. *)
Definition cell (f : Frame) (l : Label) (c : Col) : cellv :=
  match assoc l (data f) with
  | Some r => r c
  | None => None
  end.

(** [df.loc[l, c] = v] with a scalar label: a missing label appends a row
    (setting with enlargement), a missing column is appended. *)
Definition loc_set (f : Frame) (l : Label) (c : Col) (v : cellv) : Frame :=
  {| data :=
       if has_row f l
       then map (fun '(l', r) =>
                   (l', if label_eqb l l' then set_in_row r c v else r)) (data f)
       else data f ++ [(l, set_in_row (fun _ => None) c v)];
     cols := add_col (cols f) c |}.

(** [df.loc[ls, c] = v] for labels all present in the index (a boolean mask,
    or a whole column). *)
Definition loc_set_rows (f : Frame) (ls : list Label) (c : Col)
    (v : Label -> cellv) : Frame :=
  {| data := map (fun '(l', r) =>
                    (l', if existsb (label_eqb l') ls
                         then set_in_row r c (v l') else r)) (data f);
     cols := add_col (cols f) c |}.

(** [df.loc[ls, c] = v] with a list-like of labels: pandas raises [KeyError]
    when one of them is not in the index. *)
Definition loc_set_list (f : Frame) (ls : list Label) (c : Col)
    (v : Label -> cellv) : res Frame :=
  if forallb (has_row f) ls then Ok (loc_set_rows f ls c v) else Err KeyError.

(** [df[c] = v]: whole-column assignment. *)
Definition col_set (f : Frame) (c : Col) (v : Label -> cellv) : Frame :=
  loc_set_rows f (rows f) c v.

(** [df.loc[l, c]]: [KeyError] on a missing row or column. *)
Definition loc_get (f : Frame) (l : Label) (c : Col) : res cellv :=
  if has_row f l && has_col f c then Ok (cell f l c) else Err KeyError.

(** [df.loc[mask, c]] / [df[c]]: [KeyError] on a missing column. *)
Definition col_get (f : Frame) (c : Col) : res (Label -> cellv) :=
  if has_col f c then Ok (fun l => cell f l c) else Err KeyError.

(** Arithmetic on cells, NaN-propagating as numpy does. *)
Definition F (q : Q) : cellv := Some q.
Definition lift1 (g : Q -> Q) (x : cellv) : cellv :=
  option_map (fun a => Qred (g a)) x.
Definition cadd := lift2 Qplus.
Definition csub := lift2 Qminus.
Definition cmul := lift2 Qmult.
Definition cdiv := lift2 Qdiv.

Declare Scope cell_scope.
Delimit Scope cell_scope with cell.
Infix "+" := cadd : cell_scope.
Infix "-" := csub : cell_scope.
Infix "*" := cmul : cell_scope.
Infix "/" := cdiv : cell_scope.

(** Python's [range(a, b)]. *)
Definition range (a b : Z) : list Z :=
  map (fun k => (a + Z.of_nat k)%Z) (seq 0 (Z.to_nat (b - a))).

(** ** [calculate_capex] *)

Module CapexEstimator.

Definition _BESS_HRS_STORAGE : Q := 4.

Record Inputs : Type := {
  solar_pv_capacity_mw : Q;
  pv_modules : Q; pv_inverters : Q; pv_racking : Q; pv_balance_system : Q;
  pv_labor : Q;
  bess_max_power_mw : Q;
  bess_units : Q; bess_balance_of_system : Q; bess_labor : Q;
  generator_capacity_mw : Q;
  gensets : Q; gen_balance_of_system : Q; gen_labor : Q;
  datacenter_load_mw : Q;
  si_microgrid : Q; si_controls : Q; si_labor : Q;
  soft_costs_general_conditions : Q; soft_costs_epc_overhead : Q;
  soft_costs_design_engineering : Q; soft_costs_permitting : Q;
  soft_costs_startup : Q; soft_costs_insurance : Q; soft_costs_taxes : Q
}.

Record CapexBreakdown : Type := {
  solar : Q; bess : Q; generator : Q; system_integration : Q; soft_costs : Q
}.

Section Capex.
Variable i : Inputs.

Definition solar_capex : Q :=
  solar_pv_capacity_mw i * 1000000 *
  (pv_modules i + pv_inverters i + pv_racking i + pv_balance_system i +
   pv_labor i).

Definition bess_system_mwh : Q := bess_max_power_mw i * _BESS_HRS_STORAGE.

Definition bess_capex : Q :=
  bess_system_mwh * 1000 *
  (bess_units i + bess_balance_of_system i + bess_labor i).

Definition generator_capex : Q :=
  generator_capacity_mw i * 1000 *
  (gensets i + gen_balance_of_system i + gen_labor i).

Definition system_integration_capex : Q :=
  datacenter_load_mw i * 1000 * (si_microgrid i + si_controls i + si_labor i).

Definition total_hard_costs : Q :=
  solar_capex + bess_capex + generator_capex + system_integration_capex.

Definition soft_cost_pct_sum : Q :=
  soft_costs_general_conditions i + soft_costs_epc_overhead i +
  soft_costs_design_engineering i + soft_costs_permitting i +
  soft_costs_startup i + soft_costs_insurance i + soft_costs_taxes i.

Definition soft_costs_raw : Q := total_hard_costs * soft_cost_pct_sum / 100.

Definition calculate_capex : CapexBreakdown := {|
  solar := solar_capex / 1000000;
  bess := bess_capex / 1000000;
  generator := generator_capex / 1000000;
  system_integration := system_integration_capex / 1000000;
  soft_costs := soft_costs_raw / 1000000 |}.

End Capex.
End CapexEstimator.

(** ** [calculate_npv] *)

(** [values] are the (year, value) pairs of the series, NaN already filled
    with 0; the cash flow of year [t] is discounted by
    [(1 + rate/100) ^ (t + construction_time_years)]. *)
Definition calculate_npv (values : list (Z * Q)) (discount_rate : Q)
    (construction_time_years : Z) : Q :=
  fold_left (fun acc '(t, v) =>
               Qred (acc + v / (1 + discount_rate / 100) ^ (t + construction_time_years)))
            values 0.

(** ** Inputs of [calculate_pro_forma] *)

Record SimRow : Type := {
  op_year : Z;  (* 'Operating Year' *)
  solar_output_net : Q;
  bess_net_output : Q;
  generator_output : Q;
  generator_fuel_input : Q;
  load_served : Q
}.

Record PFInputs : Type := {
  datacenter_load_mw : Q;
  solar_pv_capacity_mw : Q;
  bess_max_power_mw : Q;
  generator_capacity_mw : Q;
  solar_capex : Q;
  bess_capex : Q;
  generator_capex : Q;
  system_integration_capex : Q;
  soft_costs_capex : Q;
  generator_om_fixed_dollar_per_kw : Q;
  generator_om_variable_dollar_per_kwh : Q;
  fuel_price_dollar_per_mmbtu : Q;
  fuel_escalator_pct : Q;
  solar_om_fixed_dollar_per_kw : Q;
  bess_om_fixed_dollar_per_kw : Q;
  bos_om_fixed_dollar_per_kw_load : Q;
  soft_om_pct : Q;
  om_escalator_pct : Q;
  lcoe_dollar_per_mwh : Q;
  depreciation_schedule : list Q;
  investment_tax_credit_pct : Q;
  cost_of_debt_pct : Q;
  leverage_pct : Q;
  debt_term_years : Z;
  cost_of_equity_pct : Q;
  combined_tax_rate_pct : Q;
  construction_time_years : Z
}.

(** ** [calculate_pro_forma] *)

(** [years = list(range(-1, 21))] and the empty frame indexed by it. *)
Definition years : list Z := range (-1) 21.

Definition empty_frame : Frame :=
  {| data := map (fun y => (Yr y, fun _ => None)) years; cols := [] |}.

(** Populating operating years from the simulation data:
    [for year in simulation_data['Operating Year'].unique()], taking
    [.iloc[0]] of the rows of that year. *)
Fixpoint unique_from (seen : list Z) (s : list SimRow) : list Z :=
  match s with
  | [] => []
  | r :: s' =>
      if existsb (Z.eqb (op_year r)) seen then unique_from seen s'
      else op_year r :: unique_from (op_year r :: seen) s'
  end.

Definition unique_years (s : list SimRow) : list Z := unique_from [] s.

Definition first_row (y : Z) (s : list SimRow) : option SimRow :=
  find (fun r => Z.eqb (op_year r) y) s.

Definition assign_sim_row (f : Frame) (y : Z) (r : SimRow) : Frame :=
  let f := loc_set f (Yr y) OperatingYear (F (inject_Z y)) in
  let f := loc_set f (Yr y) SolarOutputNet (F (solar_output_net r)) in
  let f := loc_set f (Yr y) BESSNetOutput (F (bess_net_output r)) in
  let f := loc_set f (Yr y) GeneratorOutput (F (generator_output r)) in
  let f := loc_set f (Yr y) GeneratorFuelInput (F (generator_fuel_input r)) in
  loc_set f (Yr y) LoadServed (F (load_served r)).

Definition populate (f : Frame) (s : list SimRow) : Frame :=
  fold_left (fun f y =>
               match first_row y s with
               | Some r => assign_sim_row f y r
               | None => f
               end) (unique_years s) f.

Section ProForma.
Variable p : PFInputs.

Definition total_hard_capex : Q :=
  solar_capex p + bess_capex p + generator_capex p + system_integration_capex p.
Definition total_capex : Q := total_hard_capex + soft_costs_capex p.
Definition total_debt : Q := total_capex * (leverage_pct p / 100).
Definition interest_rate : Q := cost_of_debt_pct p / 100.

(** PMT = PV * r * (1 + r)^n / ((1 + r)^n - 1) *)
Definition fixed_debt_payment : res Q :=
  py_div (total_debt * interest_rate * (1 + interest_rate) ^ debt_term_years p)
         ((1 + interest_rate) ^ debt_term_years p - 1).

(** Construction period: [range(-construction_time_years + 1, 1)]. *)
Definition construction_period (f : Frame) (capex_per_year : Q) : res Frame :=
  let cy := map Yr (range (- construction_time_years p + 1) 1) in
  let* f := loc_set_list f cy CapitalExpenditure
              (fun _ => F (-1 * capex_per_year)) in
  let* f := loc_set_list f cy DebtContribution
              (fun _ => F (capex_per_year * (leverage_pct p / 100))) in
  loc_set_list f cy EquityCapex
    (fun _ => F (-1 * capex_per_year * (1 - leverage_pct p / 100))).

(** [proforma.index > 0] *)
Definition is_operating (l : Label) : bool :=
  match l with Yr y => (0 <? y)%Z | NPVrow => false end.

Definition year_of (l : Label) : Z :=
  match l with Yr y => y | NPVrow => 0%Z end.

(** [-1.0 * base * (1 + escalator/100) ** (year - 1)] *)
Definition escalated_rate (base escalator_pct : Q) (year : Z) : Q :=
  -1 * base * (1 + escalator_pct / 100) ^ (year - 1).

Definition operating_period (f : Frame) : res Frame :=
  let ops := filter is_operating (rows f) in
  let rate base esc := fun l => F (escalated_rate base esc (year_of l)) in
  let om := om_escalator_pct p in
  let f := loc_set_rows f ops FuelUnitCost
             (rate (fuel_price_dollar_per_mmbtu p) (fuel_escalator_pct p)) in
  let f := loc_set_rows f ops SolarFixedOMRate
             (rate (solar_om_fixed_dollar_per_kw p) om) in
  let f := loc_set_rows f ops BatteryFixedOMRate
             (rate (bess_om_fixed_dollar_per_kw p) om) in
  let f := loc_set_rows f ops GeneratorFixedOMRate
             (rate (generator_om_fixed_dollar_per_kw p) om) in
  let f := loc_set_rows f ops GeneratorVariableOMRate
             (rate (generator_om_variable_dollar_per_kwh p) om) in
  let f := loc_set_rows f ops BOSFixedOMRate
             (rate (bos_om_fixed_dollar_per_kw_load p) om) in
  let f := loc_set_rows f ops SoftOMRate (rate (soft_om_pct p) om) in
  (* Fixed O&M Cost *)
  let* sr := col_get f SolarFixedOMRate in
  let* br := col_get f BatteryFixedOMRate in
  let* gr := col_get f GeneratorFixedOMRate in
  let* bos := col_get f BOSFixedOMRate in
  let* so := col_get f SoftOMRate in
  let f := loc_set_rows f ops FixedOMCost (fun l =>
             ((sr l * F (solar_pv_capacity_mw p) * F 1000 +
               br l * F (bess_max_power_mw p) * F 1000 +
               gr l * F (generator_capacity_mw p) * F 1000 +
               bos l * F (datacenter_load_mw p) * F 1000) / F 1000000 +
              so l / F 100 * F total_hard_capex)%cell) in
  (* Fuel Cost *)
  let* fu := col_get f FuelUnitCost in
  let* gfi := col_get f GeneratorFuelInput in
  let f := loc_set_rows f ops FuelCost (fun l =>
             ((fu l * gfi l) / F 1000000)%cell) in
  (* Variable O&M Cost *)
  let* gv := col_get f GeneratorVariableOMRate in
  let* go := col_get f GeneratorOutput in
  let f := loc_set_rows f ops VariableOMCost (fun l =>
             ((gv l * go l * F 1000) / F 1000000)%cell) in
  (* Total operating costs *)
  let* fc := col_get f FuelCost in
  let* fo := col_get f FixedOMCost in
  let* vo := col_get f VariableOMCost in
  let f := loc_set_rows f ops TotalOperatingCosts (fun l =>
             (fc l + fo l + vo l)%cell) in
  (* LCOE, Revenue, EBITDA *)
  let f := loc_set_rows f ops LCOE (fun _ => F (lcoe_dollar_per_mwh p)) in
  let* ls := col_get f LoadServed in
  let f := loc_set_rows f ops Revenue (fun l =>
             ((F (lcoe_dollar_per_mwh p) * ls l) / F 1000000)%cell) in
  let* rv := col_get f Revenue in
  let* toc := col_get f TotalOperatingCosts in
  Ok (loc_set_rows f ops EBITDA (fun l => (rv l + toc l)%cell)).

(** One iteration of the debt, tax and capital loop. *)
Definition interest_expense (balance : Q) : Q := -1 * balance * interest_rate.
Definition principal_payment (debt_service interest : Q) : Q :=
  debt_service - interest.
Definition next_debt_outstanding (balance principal : Q) : Q :=
  balance + principal.

Definition depreciation_pct (year : Z) : Q :=
  if (year <=? Z.of_nat (length (depreciation_schedule p)))%Z
  then nth (Z.to_nat (year - 1)) (depreciation_schedule p) 0
  else 0.

Definition debt_tax_year (pmt depreciable : Q) (f : Frame) (year : Z)
    : res Frame :=
  let* bal := loc_get f (Yr year) DebtOutstandingYrStart in
  let f := loc_set f (Yr year) InterestExpense (lift1 interest_expense bal) in
  let f := loc_set f (Yr year) DebtService (F (-1 * pmt)) in
  let* ds := loc_get f (Yr year) DebtService in
  let* ie := loc_get f (Yr year) InterestExpense in
  let f := loc_set f (Yr year) PrincipalPayment (lift2 principal_payment ds ie) in
  let* f :=
    if (year <? debt_term_years p)%Z then
      let* b := loc_get f (Yr year) DebtOutstandingYrStart in
      let* pp := loc_get f (Yr year) PrincipalPayment in
      Ok (loc_set f (Yr (year + 1)) DebtOutstandingYrStart
                  (lift2 next_debt_outstanding b pp))
    else Ok f in
  let f := loc_set f (Yr year) DepreciationSchedule (F (depreciation_pct year)) in
  let* dsch := loc_get f (Yr year) DepreciationSchedule in
  let f := loc_set f (Yr year) DepreciationMACRS
             (F (-1) * (dsch / F 100) * F depreciable)%cell in
  let* e := loc_get f (Yr year) EBITDA in
  let* dm := loc_get f (Yr year) DepreciationMACRS in
  let* ie := loc_get f (Yr year) InterestExpense in
  let f := loc_set f (Yr year) TaxableIncome (e + dm + ie)%cell in
  let* ie := loc_get f (Yr year) InterestExpense in
  Ok (loc_set f (Yr year) InterestExpenseTax ie).

Fixpoint debt_tax_loop (pmt depreciable : Q) (ys : list Z) (f : Frame)
    : res Frame :=
  match ys with
  | [] => Ok f
  | y :: ys' =>
      let* f := debt_tax_year pmt depreciable f y in
      debt_tax_loop pmt depreciable ys' f
  end.

Definition tax_and_cash_flow (f : Frame) : res Frame :=
  let* ti := col_get f TaxableIncome in
  let* itc := col_get f FederalITC in
  let f := col_set f TaxBenefitLiability (fun l =>
             (F (-1) * (ti l * F (combined_tax_rate_pct p / 100)) +
              F (fillna0 (itc l)))%cell) in
  let* e := col_get f EBITDA in
  let* ds := col_get f DebtService in
  let* tb := col_get f TaxBenefitLiability in
  let* eq := col_get f EquityCapex in
  Ok (col_set f AfterTaxNetEquityCashFlow (fun l =>
        F (fillna0 (e l) + fillna0 (ds l) + fillna0 (tb l) + fillna0 (eq l)))).

(** The NPV loop over [proforma.columns]. *)
Definition dated_cells (f : Frame) (c : Col) : list cellv :=
  flat_map (fun '(l, r) => match l with Yr _ => [r c] | NPVrow => [] end)
           (data f).

Definition dated_series (f : Frame) (c : Col) : list (Z * Q) :=
  flat_map (fun '(l, r) =>
              match l with Yr y => [(y, fillna0 (r c))] | NPVrow => [] end)
           (data f).

(** [Series.sum()] skips NaN. *)
Definition sum_skipna (xs : list cellv) : Q :=
  fold_left (fun acc x => match x with Some a => Qred (acc + a) | None => acc end) xs 0.

Definition npv_step (f : Frame) (c : Col) : Frame :=
  if col_in c _CALCULATE_TOTALS then
    loc_set f NPVrow c (F (sum_skipna (dated_cells f c)))
  else if col_in c _EXCLUDE_FROM_NPV then
    loc_set f NPVrow c None
  else if negb (Col_beq c OperatingYear) then
    loc_set f NPVrow c
      (F (calculate_npv (dated_series f c) (cost_of_equity_pct p)
                        (construction_time_years p)))
  else f.

Definition npv_loop (f : Frame) : Frame := fold_left npv_step (cols f) f.

Definition pro_forma_unrounded (simulation_data : list SimRow) : res Frame :=
  let f := populate empty_frame simulation_data in
  let* pmt := fixed_debt_payment in
  let* renewable_proportion_of_hard_capex :=
    py_div (solar_capex p + bess_capex p) total_hard_capex in
  let tax_credit_amount :=
    total_capex * renewable_proportion_of_hard_capex *
    (investment_tax_credit_pct p / 100) in
  let amount_that_is_depreciable := total_capex - tax_credit_amount / 2 in
  let f := loc_set f (Yr 1) DebtOutstandingYrStart (F total_debt) in
  let f := loc_set f (Yr 1) FederalITC (F tax_credit_amount) in
  let* capex_per_year :=
    py_div total_capex (inject_Z (construction_time_years p)) in
  let* f := construction_period f capex_per_year in
  let* f := operating_period f in
  let* f := debt_tax_loop pmt amount_that_is_depreciable
              (filter (fun y => 0 <? y)%Z years) f in
  let* f := tax_and_cash_flow f in
  Ok (npv_loop f).

End ProForma.

(** [proforma.round(2)]: numpy rounds half to even. *)
Definition round_half_even (x : Q) : Z :=
  let fl := Qfloor x in
  match Qcompare (x - inject_Z fl) (1 # 2) with
  | Lt => fl
  | Gt => (fl + 1)%Z
  | Eq => if Z.even fl then fl else (fl + 1)%Z
  end.

Definition round2 (x : Q) : Q := inject_Z (round_half_even (x * 100)) / 100.

Definition round_frame (f : Frame) : Frame :=
  {| data := map (fun '(l, r) => (l, fun c => option_map round2 (r c))) (data f);
     cols := cols f |}.

Definition calculate_pro_forma (simulation_data : list SimRow) (p : PFInputs)
    : res Frame :=
  fmap_res round_frame (pro_forma_unrounded p simulation_data).

(** ** The amortization recurrence of the debt loop, on scalars *)

(** One year of the loop on the opening balance: interest expense, debt
    service [-pmt], principal payment, next opening balance. *)
Definition debt_step (p : PFInputs) (pmt bal : Q) : Q :=
  next_debt_outstanding bal
    (principal_payment (-1 * pmt) (interest_expense p bal)).

Fixpoint opening_balances (p : PFInputs) (pmt bal : Q) (k : nat) : list Q :=
  match k with
  | O => []
  | S k' => bal :: opening_balances p pmt (debt_step p pmt bal) k'
  end.

Fixpoint closing_balance (p : PFInputs) (pmt bal : Q) (k : nat) : Q :=
  match k with
  | O => bal
  | S k' => closing_balance p pmt (debt_step p pmt bal) k'
  end.

Definition sum_Q (xs : list Q) : Q := fold_right Qplus 0 xs.

(** ** Keeping the first row of each operating year *)

Fixpoint dedup_from (seen : list Z) (s : list SimRow) : list SimRow :=
  match s with
  | [] => []
  | r :: s' =>
      if existsb (Z.eqb (op_year r)) seen then dedup_from seen s'
      else r :: dedup_from (op_year r :: seen) s'
  end.

Definition first_rows (s : list SimRow) : list SimRow := dedup_from [] s.

(** ** Concrete scenarios *)

Module Scenario.

Definition sim_row (y : Z) : SimRow := {|
  op_year := y; solar_output_net := 1000; bess_net_output := 200;
  generator_output := 300; generator_fuel_input := 2500;
  load_served := 876000 |}.

Definition sim20 : list SimRow := map sim_row (range 1 21).

(** The defaults of the input form, with the CAPEX of the example plant. *)
Definition base : PFInputs := {|
  datacenter_load_mw := 100; solar_pv_capacity_mw := 150;
  bess_max_power_mw := 50; generator_capacity_mw := 100;
  solar_capex := 115; bess_capex := 52; generator_capex := 115;
  system_integration_capex := 41; soft_costs_capex := 38;
  generator_om_fixed_dollar_per_kw := 10;
  generator_om_variable_dollar_per_kwh := 25 # 1000;
  fuel_price_dollar_per_mmbtu := 5; fuel_escalator_pct := 3;
  solar_om_fixed_dollar_per_kw := 11; bess_om_fixed_dollar_per_kw := 5 # 2;
  bos_om_fixed_dollar_per_kw_load := 6; soft_om_pct := 1 # 4;
  om_escalator_pct := 5 # 2; lcoe_dollar_per_mwh := 10735 # 100;
  depreciation_schedule := [20; 32; 96 # 5; 1152 # 100; 1152 # 100; 576 # 100];
  investment_tax_credit_pct := 30; cost_of_debt_pct := 15 # 2;
  leverage_pct := 70; debt_term_years := 20; cost_of_equity_pct := 11;
  combined_tax_rate_pct := 21; construction_time_years := 2 |}.

Definition with_construction (n : Z) (q : PFInputs) : PFInputs :=
  {| datacenter_load_mw := datacenter_load_mw q;
     solar_pv_capacity_mw := solar_pv_capacity_mw q;
     bess_max_power_mw := bess_max_power_mw q;
     generator_capacity_mw := generator_capacity_mw q;
     solar_capex := solar_capex q; bess_capex := bess_capex q;
     generator_capex := generator_capex q;
     system_integration_capex := system_integration_capex q;
     soft_costs_capex := soft_costs_capex q;
     generator_om_fixed_dollar_per_kw := generator_om_fixed_dollar_per_kw q;
     generator_om_variable_dollar_per_kwh :=
       generator_om_variable_dollar_per_kwh q;
     fuel_price_dollar_per_mmbtu := fuel_price_dollar_per_mmbtu q;
     fuel_escalator_pct := fuel_escalator_pct q;
     solar_om_fixed_dollar_per_kw := solar_om_fixed_dollar_per_kw q;
     bess_om_fixed_dollar_per_kw := bess_om_fixed_dollar_per_kw q;
     bos_om_fixed_dollar_per_kw_load := bos_om_fixed_dollar_per_kw_load q;
     soft_om_pct := soft_om_pct q; om_escalator_pct := om_escalator_pct q;
     lcoe_dollar_per_mwh := lcoe_dollar_per_mwh q;
     depreciation_schedule := depreciation_schedule q;
     investment_tax_credit_pct := investment_tax_credit_pct q;
     cost_of_debt_pct := cost_of_debt_pct q; leverage_pct := leverage_pct q;
     debt_term_years := debt_term_years q;
     cost_of_equity_pct := cost_of_equity_pct q;
     combined_tax_rate_pct := combined_tax_rate_pct q;
     construction_time_years := n |}.

(** Zero cost of debt, as the input form allows. *)
Definition zero_rate : PFInputs := {|
  datacenter_load_mw := 100; solar_pv_capacity_mw := 150;
  bess_max_power_mw := 50; generator_capacity_mw := 100;
  solar_capex := 115; bess_capex := 52; generator_capex := 115;
  system_integration_capex := 41; soft_costs_capex := 38;
  generator_om_fixed_dollar_per_kw := 10;
  generator_om_variable_dollar_per_kwh := 25 # 1000;
  fuel_price_dollar_per_mmbtu := 5; fuel_escalator_pct := 3;
  solar_om_fixed_dollar_per_kw := 11; bess_om_fixed_dollar_per_kw := 5 # 2;
  bos_om_fixed_dollar_per_kw_load := 6; soft_om_pct := 1 # 4;
  om_escalator_pct := 5 # 2; lcoe_dollar_per_mwh := 10735 # 100;
  depreciation_schedule := [20; 32; 96 # 5; 1152 # 100; 1152 # 100; 576 # 100];
  investment_tax_credit_pct := 30; cost_of_debt_pct := 0;
  leverage_pct := 70; debt_term_years := 20; cost_of_equity_pct := 11;
  combined_tax_rate_pct := 21; construction_time_years := 2 |}.

(** No hard CAPEX at all. *)
Definition no_capex : PFInputs := {|
  datacenter_load_mw := 0; solar_pv_capacity_mw := 0;
  bess_max_power_mw := 0; generator_capacity_mw := 0;
  solar_capex := 0; bess_capex := 0; generator_capex := 0;
  system_integration_capex := 0; soft_costs_capex := 0;
  generator_om_fixed_dollar_per_kw := 10;
  generator_om_variable_dollar_per_kwh := 25 # 1000;
  fuel_price_dollar_per_mmbtu := 5; fuel_escalator_pct := 3;
  solar_om_fixed_dollar_per_kw := 11; bess_om_fixed_dollar_per_kw := 5 # 2;
  bos_om_fixed_dollar_per_kw_load := 6; soft_om_pct := 1 # 4;
  om_escalator_pct := 5 # 2; lcoe_dollar_per_mwh := 10735 # 100;
  depreciation_schedule := [20; 32; 96 # 5; 1152 # 100; 1152 # 100; 576 # 100];
  investment_tax_credit_pct := 30; cost_of_debt_pct := 15 # 2;
  leverage_pct := 70; debt_term_years := 20; cost_of_equity_pct := 11;
  combined_tax_rate_pct := 21; construction_time_years := 2 |}.

(** A one-year loan of 100 at 10%. *)
Definition loan100 : PFInputs := {|
  datacenter_load_mw := 0; solar_pv_capacity_mw := 0;
  bess_max_power_mw := 0; generator_capacity_mw := 0;
  solar_capex := 100; bess_capex := 0; generator_capex := 0;
  system_integration_capex := 0; soft_costs_capex := 0;
  generator_om_fixed_dollar_per_kw := 0;
  generator_om_variable_dollar_per_kwh := 0;
  fuel_price_dollar_per_mmbtu := 0; fuel_escalator_pct := 0;
  solar_om_fixed_dollar_per_kw := 0; bess_om_fixed_dollar_per_kw := 0;
  bos_om_fixed_dollar_per_kw_load := 0; soft_om_pct := 0;
  om_escalator_pct := 0; lcoe_dollar_per_mwh := 0;
  depreciation_schedule := [];
  investment_tax_credit_pct := 0; cost_of_debt_pct := 10;
  leverage_pct := 100; debt_term_years := 1; cost_of_equity_pct := 11;
  combined_tax_rate_pct := 21; construction_time_years := 1 |}.

(** The CAPEX form's default unit costs, at 100 MW of solar, 50 MW of
    storage, 100 MW of generators and a 100 MW load. *)
Definition capex_inputs : CapexEstimator.Inputs := {|
  CapexEstimator.solar_pv_capacity_mw := 100;
  CapexEstimator.pv_modules := 22 # 100;
  CapexEstimator.pv_inverters := 5 # 100;
  CapexEstimator.pv_racking := 18 # 100;
  CapexEstimator.pv_balance_system := 12 # 100;
  CapexEstimator.pv_labor := 20 # 100;
  CapexEstimator.bess_max_power_mw := 50;
  CapexEstimator.bess_units := 200;
  CapexEstimator.bess_balance_of_system := 40;
  CapexEstimator.bess_labor := 20;
  CapexEstimator.generator_capacity_mw := 100;
  CapexEstimator.gensets := 800;
  CapexEstimator.gen_balance_of_system := 200;
  CapexEstimator.gen_labor := 150;
  CapexEstimator.datacenter_load_mw := 100;
  CapexEstimator.si_microgrid := 300;
  CapexEstimator.si_controls := 50;
  CapexEstimator.si_labor := 60;
  CapexEstimator.soft_costs_general_conditions := 50 # 100;
  CapexEstimator.soft_costs_epc_overhead := 5;
  CapexEstimator.soft_costs_design_engineering := 50 # 100;
  CapexEstimator.soft_costs_permitting := 5 # 100;
  CapexEstimator.soft_costs_startup := 25 # 100;
  CapexEstimator.soft_costs_insurance := 50 # 100;
  CapexEstimator.soft_costs_taxes := 5 |}.

(** The default scenario with a shorter debt term. *)
Definition with_debt_term (n : Z) (q : PFInputs) : PFInputs :=
  {| datacenter_load_mw := datacenter_load_mw q;
     solar_pv_capacity_mw := solar_pv_capacity_mw q;
     bess_max_power_mw := bess_max_power_mw q;
     generator_capacity_mw := generator_capacity_mw q;
     solar_capex := solar_capex q; bess_capex := bess_capex q;
     generator_capex := generator_capex q;
     system_integration_capex := system_integration_capex q;
     soft_costs_capex := soft_costs_capex q;
     generator_om_fixed_dollar_per_kw := generator_om_fixed_dollar_per_kw q;
     generator_om_variable_dollar_per_kwh :=
       generator_om_variable_dollar_per_kwh q;
     fuel_price_dollar_per_mmbtu := fuel_price_dollar_per_mmbtu q;
     fuel_escalator_pct := fuel_escalator_pct q;
     solar_om_fixed_dollar_per_kw := solar_om_fixed_dollar_per_kw q;
     bess_om_fixed_dollar_per_kw := bess_om_fixed_dollar_per_kw q;
     bos_om_fixed_dollar_per_kw_load := bos_om_fixed_dollar_per_kw_load q;
     soft_om_pct := soft_om_pct q; om_escalator_pct := om_escalator_pct q;
     lcoe_dollar_per_mwh := lcoe_dollar_per_mwh q;
     depreciation_schedule := depreciation_schedule q;
     investment_tax_credit_pct := investment_tax_credit_pct q;
     cost_of_debt_pct := cost_of_debt_pct q; leverage_pct := leverage_pct q;
     debt_term_years := n;
     cost_of_equity_pct := cost_of_equity_pct q;
     combined_tax_rate_pct := combined_tax_rate_pct q;
     construction_time_years := construction_time_years q |}.

(** Simulation data with no row for operating year 7. *)
Definition sim_gap : list SimRow := map sim_row (range 1 7 ++ range 8 21).

End Scenario.

(** ** Auxiliary definitions for the proofs *)

(** The index after a scalar [.loc] assignment at label [l]. *)
Definition add_row (rs : list Label) (l : Label) : list Label :=
  if existsb (label_eqb l) rs then rs else rs ++ [l].

(** The entry the NPV loop leaves in the [NPV] row for a column [c] of a
    table [f] without an [NPV] row; [NaN] for [Operating Year]. *)
Definition npv_entry (p : PFInputs) (f : Frame) (c : Col) : cellv :=
  if col_in c _CALCULATE_TOTALS then F (sum_skipna (dated_cells f c))
  else if col_in c _EXCLUDE_FROM_NPV then None
  else if negb (Col_beq c OperatingYear) then
    F (calculate_npv (dated_series f c) (cost_of_equity_pct p)
                     (construction_time_years p))
  else None.

(** A table reached by the NPV loop from [f0]: same columns, same dated rows,
    and at most one [NPV] row appended. *)
Definition npv_inv (f0 g : Frame) : Prop :=
  cols g = cols f0 /\
  (data g = data f0 \/ exists r, data g = data f0 ++ [(NPVrow, r)]).

(** * Properties *)

(** ** Division and the fixed debt payment *)

Lemma py_div_zero (x y : Q) : y == 0 -> py_div x y = Err ZeroDivisionError.
Proof.
  intros Hy. unfold py_div. apply Qeq_bool_iff in Hy. now rewrite Hy.
Qed.

Lemma py_div_err (x y : Q) (e : exc) :
  py_div x y = Err e -> e = ZeroDivisionError /\ y == 0.
Proof.
  unfold py_div. destruct (Qeq_bool y 0) eqn:E; intros H; inversion H.
  split; [reflexivity | now apply Qeq_bool_iff].
Qed.

Lemma py_div_ok (x y q : Q) : py_div x y = Ok q -> q = x / y /\ ~ y == 0.
Proof.
  unfold py_div. destruct (Qeq_bool y 0) eqn:E; intros H; inversion H.
  split; [reflexivity|]. intros Hy. apply Qeq_bool_iff in Hy. congruence.
Qed.

Lemma one_plus_rate_gt_1 (c : Q) : 0 < c -> 1 < 1 + c / 100.
Proof.
  intros Hc.
  assert (H : 0 < c / 100).
  { apply Qlt_shift_div_l; [reflexivity | rewrite Qmult_0_l; exact Hc]. }
  lra.
Qed.

Lemma fixed_debt_payment_zero_rate (p : PFInputs) :
  cost_of_debt_pct p == 0 -> fixed_debt_payment p = Err ZeroDivisionError.
Proof.
  intros Hc. unfold fixed_debt_payment. apply py_div_zero.
  assert (Ha : 1 + interest_rate p == 1).
  { unfold interest_rate. rewrite Hc. reflexivity. }
  rewrite Ha, Qpower_1. reflexivity.
Qed.

(** For a positive rate and term the payment is the annuity formula. *)
Lemma fixed_debt_payment_pos_rate (p : PFInputs) :
  0 < cost_of_debt_pct p -> (1 <= debt_term_years p)%Z ->
  fixed_debt_payment p =
    Ok (total_debt p * interest_rate p * (1 + interest_rate p) ^ debt_term_years p
        / ((1 + interest_rate p) ^ debt_term_years p - 1)).
Proof.
  intros Hc Hn. unfold fixed_debt_payment, py_div.
  destruct (Qeq_bool _ 0) eqn:E; [|reflexivity].
  apply Qeq_bool_iff in E.
  assert (H1 : 1 < (1 + interest_rate p) ^ debt_term_years p).
  { apply Qpower_1_lt; [apply one_plus_rate_gt_1; exact Hc | lia]. }
  exfalso. lra.
Qed.

(** C1: at a cost of debt of 0 the code does not special-case the
    payment: [(1 + 0) ** n - 1] is 0 and the division raises
    [ZeroDivisionError], so no pro forma is produced. *)
Theorem zero_cost_of_debt_raises (sim : list SimRow) (p : PFInputs) :
  cost_of_debt_pct p == 0 -> calculate_pro_forma sim p = Err ZeroDivisionError.
Proof.
  intros Hc. unfold calculate_pro_forma, pro_forma_unrounded.
  rewrite (fixed_debt_payment_zero_rate p Hc). reflexivity.
Qed.

Lemma zero_cost_of_debt_raises_witness :
  cost_of_debt_pct Scenario.zero_rate == 0 /\
  calculate_pro_forma Scenario.sim20 Scenario.zero_rate = Err ZeroDivisionError.
Proof.
  split; [reflexivity|]. apply zero_cost_of_debt_raises. reflexivity.
Defined.

(** ** Zero hard CAPEX *)

(** C7: with zero total hard CAPEX the renewable-proportion division
    raises Python's [ZeroDivisionError] (or the payment division did
    already); no domain error [InvalidScenario] and no table is produced. *)
Theorem zero_hard_capex_raises (sim : list SimRow) (p : PFInputs) :
  total_hard_capex p == 0 -> calculate_pro_forma sim p = Err ZeroDivisionError.
Proof.
  intros Hh. unfold calculate_pro_forma, pro_forma_unrounded.
  destruct (fixed_debt_payment p) as [pmt|e] eqn:E.
  - cbn [bind]. rewrite (py_div_zero _ _ Hh). reflexivity.
  - unfold fixed_debt_payment in E. apply py_div_err in E as [-> _].
    reflexivity.
Qed.

Lemma zero_hard_capex_raises_witness :
  total_hard_capex Scenario.no_capex == 0 /\
  calculate_pro_forma Scenario.sim20 Scenario.no_capex = Err ZeroDivisionError.
Proof.
  split; [reflexivity|]. apply zero_hard_capex_raises. reflexivity.
Defined.

Lemma zero_hard_capex_no_domain_error :
  calculate_pro_forma Scenario.sim20 Scenario.no_capex <> Err InvalidScenario.
Proof. vm_compute. discriminate. Qed.

(** ** CAPEX additivity *)

(** C9: hard CAPEX is the sum of its four components, soft costs are hard
    CAPEX times the summed soft-cost percentages over 100 (also on the
    returned figures in $M), and the pro forma adds the same four. *)
Theorem capex_additivity (i : CapexEstimator.Inputs) (p : PFInputs) :
  CapexEstimator.total_hard_costs i =
    CapexEstimator.solar_capex i + CapexEstimator.bess_capex i +
    CapexEstimator.generator_capex i +
    CapexEstimator.system_integration_capex i /\
  CapexEstimator.soft_costs_raw i ==
    CapexEstimator.total_hard_costs i * CapexEstimator.soft_cost_pct_sum i / 100 /\
  (let b := CapexEstimator.calculate_capex i in
   CapexEstimator.soft_costs b ==
     (CapexEstimator.solar b + CapexEstimator.bess b +
      CapexEstimator.generator b + CapexEstimator.system_integration b) *
     CapexEstimator.soft_cost_pct_sum i / 100) /\
  total_hard_capex p =
    solar_capex p + bess_capex p + generator_capex p + system_integration_capex p.
Proof.
  split; [reflexivity|]. split; [reflexivity|]. split; [|reflexivity].
  cbn. unfold CapexEstimator.soft_costs_raw, CapexEstimator.total_hard_costs.
  field.
Qed.

(** ** Escalation *)

(** C8 (literal form refuted): the fuel rate of year 2 at a 10% escalator
    does not exceed that of year 1, since rates are recorded negative. *)
Lemma escalated_rate_not_increasing :
  ~ escalated_rate 1 10 1 < escalated_rate 1 10 2.
Proof. vm_compute. discriminate. Qed.

(** C8: for a positive base rate the signed rate strictly decreases each
    year when the escalator is positive (its magnitude strictly grows), and
    is constant at a zero escalator. *)
Theorem escalated_rate_magnitude_grows (base e : Q) (y : Z) :
  0 < base ->
  (0 < e ->
   escalated_rate base e (y + 1) < escalated_rate base e y /\
   - escalated_rate base e y < - escalated_rate base e (y + 1)) /\
  (e == 0 -> escalated_rate base e (y + 1) == escalated_rate base e y).
Proof.
  intros Hb. unfold escalated_rate.
  replace (y + 1 - 1)%Z with y by lia.
  split.
  - intros He.
    assert (Hlt : (1 + e / 100) ^ (y - 1) < (1 + e / 100) ^ y).
    { apply Qpower_lt_compat_l; [lia | apply one_plus_rate_gt_1; exact He]. }
    assert (Hm : base * (1 + e / 100) ^ (y - 1) < base * (1 + e / 100) ^ y).
    { apply Qmult_lt_l; assumption. }
    split; lra.
  - intros He.
    assert (Ha : 1 + e / 100 == 1) by (rewrite He; reflexivity).
    rewrite Ha, !Qpower_1. reflexivity.
Qed.

Lemma escalated_rate_magnitude_grows_witness :
  0 < 5 /\
  escalated_rate 5 3 (2 + 1) < escalated_rate 5 3 2 /\
  escalated_rate 5 0 (2 + 1) == escalated_rate 5 0 2.
Proof.
  assert (H : 0 < 5) by reflexivity.
  destruct (escalated_rate_magnitude_grows 5 3 2 H) as [H1 _].
  destruct (escalated_rate_magnitude_grows 5 0 2 H) as [_ H2].
  split; [exact H|]. split.
  - apply H1. reflexivity.
  - apply H2. reflexivity.
Defined.

(** ** Amortization *)

Lemma debt_step_eq (p : PFInputs) (pmt b : Q) :
  debt_step p pmt b == (1 + interest_rate p) * b - pmt.
Proof.
  unfold debt_step, next_debt_outstanding, principal_payment, interest_expense.
  ring.
Qed.

Lemma closing_balance_closed (p : PFInputs) (pmt : Q) (k : nat) :
  0 < interest_rate p ->
  forall b, closing_balance p pmt b k ==
    (1 + interest_rate p) ^ Z.of_nat k * b -
    pmt * ((1 + interest_rate p) ^ Z.of_nat k - 1) / interest_rate p.
Proof.
  intros Hr.
  assert (Hr0 : ~ interest_rate p == 0) by (intros H0; lra).
  assert (Ha : ~ 1 + interest_rate p == 0) by (intros H0; lra).
  induction k as [|k IH]; intros b.
  - cbn [closing_balance Z.of_nat]. rewrite Qpower_0_r. field. exact Hr0.
  - cbn [closing_balance]. rewrite IH, debt_step_eq.
    rewrite Nat2Z.inj_succ, <- Z.add_1_r, Qpower_plus by exact Ha.
    rewrite Qpower_1_r. field. exact Hr0.
Qed.

(** Each year repays [pmt + interest]; the repayments telescope. *)
Lemma repayments_telescope (p : PFInputs) (pmt : Q) (k : nat) :
  forall b, sum_Q (map (fun x => pmt + interest_expense p x)
                       (opening_balances p pmt b k)) ==
            b - closing_balance p pmt b k.
Proof.
  induction k as [|k IH]; intros b.
  - cbn. ring.
  - cbn [opening_balances closing_balance map sum_Q fold_right].
    fold (sum_Q (map (fun x => pmt + interest_expense p x)
                     (opening_balances p pmt (debt_step p pmt b) k))).
    rewrite IH. unfold debt_step, next_debt_outstanding, principal_payment.
    ring.
Qed.

(** C5 (literal form refuted): with the code's signs, interest
    [-balance * r] is negative, and for a loan of 100 at 10% over one year
    the fixed payment 110 minus that interest is 120, not the principal. *)
Lemma amortization_claim_counterexample :
  match fixed_debt_payment Scenario.loan100 with
  | Ok pmt =>
      ~ total_debt Scenario.loan100 ==
        sum_Q (map (fun b => pmt - interest_expense Scenario.loan100 b)
                   (opening_balances Scenario.loan100 pmt
                      (total_debt Scenario.loan100)
                      (Z.to_nat (debt_term_years Scenario.loan100))))
  | Err _ => False
  end.
Proof. vm_compute. discriminate. Qed.

(** C5: for a positive rate and a term n >= 1, the declining-balance
    recurrence of the debt loop with the fixed payment brings the balance
    to exactly 0 after n years; the principal equals the sum over those
    years of payment plus (negative) interest expense. *)
Theorem amortization_reaches_zero (p : PFInputs) (pmt : Q) :
  0 < cost_of_debt_pct p -> (1 <= debt_term_years p)%Z ->
  fixed_debt_payment p = Ok pmt ->
  closing_balance p pmt (total_debt p) (Z.to_nat (debt_term_years p)) == 0 /\
  total_debt p ==
    sum_Q (map (fun b => pmt + interest_expense p b)
               (opening_balances p pmt (total_debt p)
                  (Z.to_nat (debt_term_years p)))).
Proof.
  intros Hc Hn Hp.
  assert (Hr : 0 < interest_rate p).
  { unfold interest_rate.
    apply Qlt_shift_div_l; [reflexivity | rewrite Qmult_0_l; exact Hc]. }
  assert (Hr0 : ~ interest_rate p == 0) by (intros H0; lra).
  assert (H1 : 1 < (1 + interest_rate p) ^ debt_term_years p).
  { apply Qpower_1_lt; [apply one_plus_rate_gt_1; exact Hc | lia]. }
  assert (Hd : ~ (1 + interest_rate p) ^ debt_term_years p - 1 == 0)
    by (intros H0; lra).
  unfold fixed_debt_payment in Hp. apply py_div_ok in Hp as [-> _].
  assert (Hz : closing_balance p
     (total_debt p * interest_rate p * (1 + interest_rate p) ^ debt_term_years p /
      ((1 + interest_rate p) ^ debt_term_years p - 1))
     (total_debt p) (Z.to_nat (debt_term_years p)) == 0).
  { rewrite closing_balance_closed by exact Hr.
    rewrite Z2Nat.id by lia. field. split; assumption. }
  split; [exact Hz|].
  rewrite repayments_telescope, Hz. ring.
Qed.

Lemma amortization_reaches_zero_witness :
  0 < cost_of_debt_pct Scenario.base /\
  (1 <= debt_term_years Scenario.base)%Z /\
  match fixed_debt_payment Scenario.base with
  | Ok pmt =>
      closing_balance Scenario.base pmt (total_debt Scenario.base)
        (Z.to_nat (debt_term_years Scenario.base)) == 0
  | Err _ => False
  end.
Proof.
  assert (Hc : 0 < cost_of_debt_pct Scenario.base) by reflexivity.
  assert (Hn : (1 <= debt_term_years Scenario.base)%Z) by (cbn; lia).
  split; [exact Hc|]. split; [exact Hn|].
  destruct (fixed_debt_payment Scenario.base) as [pmt|e] eqn:E.
  - apply (amortization_reaches_zero Scenario.base pmt Hc Hn E).
  - discriminate (eq_trans (eq_sym E)
      (fixed_debt_payment_pos_rate Scenario.base Hc Hn)).
Defined.

(** ** Duplicate operating years in the simulation data *)

Lemma unique_from_dedup (s : list SimRow) :
  forall seen, unique_from seen (dedup_from seen s) = unique_from seen s.
Proof.
  induction s as [|r s IH]; intros seen; [reflexivity|].
  cbn [dedup_from unique_from].
  destruct (existsb (Z.eqb (op_year r)) seen) eqn:E.
  - apply IH.
  - cbn [unique_from]. rewrite E, IH. reflexivity.
Qed.

Lemma find_dedup (s : list SimRow) (y : Z) :
  forall seen, existsb (Z.eqb y) seen = false ->
  find (fun r => Z.eqb (op_year r) y) (dedup_from seen s) =
  find (fun r => Z.eqb (op_year r) y) s.
Proof.
  induction s as [|r s IH]; intros seen Hy; [reflexivity|].
  cbn [dedup_from find].
  destruct (existsb (Z.eqb (op_year r)) seen) eqn:E.
  - destruct (Z.eqb (op_year r) y) eqn:Ey.
    + apply Z.eqb_eq in Ey. rewrite Ey in E. congruence.
    + apply IH, Hy.
  - cbn [find]. destruct (Z.eqb (op_year r) y) eqn:Ey; [reflexivity|].
    apply IH. cbn. rewrite Hy, Bool.orb_false_r.
    apply Z.eqb_neq. apply Z.eqb_neq in Ey. congruence.
Qed.

Lemma fold_left_ext_in {A B : Type} (g h : A -> B -> A) (l : list B) :
  (forall a b, In b l -> g a b = h a b) ->
  forall a, fold_left g l a = fold_left h l a.
Proof.
  induction l as [|b l IH]; intros Hgh a; [reflexivity|].
  cbn. rewrite Hgh by (left; reflexivity).
  apply IH. intros a' b' Hb. apply Hgh. right. exact Hb.
Qed.

Lemma populate_first_rows (f : Frame) (s : list SimRow) :
  populate f (first_rows s) = populate f s.
Proof.
  unfold populate, unique_years, first_rows.
  rewrite unique_from_dedup.
  apply fold_left_ext_in. intros g y _.
  unfold first_row. rewrite find_dedup by reflexivity. reflexivity.
Qed.

(** C10: only the first row of each operating year is read: dropping every
    later row with an already-seen operating year leaves the result of
    [calculate_pro_forma] (table or exception) unchanged. *)
Theorem duplicate_years_ignored (sim : list SimRow) (p : PFInputs) :
  calculate_pro_forma (first_rows sim) p = calculate_pro_forma sim p.
Proof.
  unfold calculate_pro_forma, pro_forma_unrounded.
  rewrite populate_first_rows. reflexivity.
Qed.

(** ** Frame lemmas *)

Lemma label_eqb_eq (a b : Label) : label_eqb a b = true <-> a = b.
Proof.
  destruct a, b; cbn; split; intros H; try discriminate; try reflexivity.
  - apply Z.eqb_eq in H. congruence.
  - injection H as ->. apply Z.eqb_refl.
Qed.

Lemma label_eqb_refl (a : Label) : label_eqb a a = true.
Proof. apply label_eqb_eq. reflexivity. Qed.

Lemma Col_beq_eq (a b : Col) : Col_beq a b = true <-> a = b.
Proof.
  split; [apply internal_Col_dec_bl | apply internal_Col_dec_lb].
Qed.

Lemma Col_beq_refl (a : Col) : Col_beq a a = true.
Proof. apply Col_beq_eq. reflexivity. Qed.

Lemma Col_beq_neq (a b : Col) : a <> b -> Col_beq a b = false.
Proof.
  intros H. destruct (Col_beq a b) eqn:E; [|reflexivity].
  apply Col_beq_eq in E. contradiction.
Qed.

Lemma existsb_label_In (l : Label) (rs : list Label) :
  existsb (label_eqb l) rs = true <-> In l rs.
Proof.
  rewrite existsb_exists. split.
  - intros (x & Hx & E). apply label_eqb_eq in E. subst. exact Hx.
  - intros H. exists l. split; [exact H | apply label_eqb_refl].
Qed.

Lemma map_fst_upd (g : Label -> Row -> Row) (d : list (Label * Row)) :
  map fst (map (fun '(x, r) => (x, g x r)) d) = map fst d.
Proof.
  induction d as [|[x r] d IH]; cbn; [reflexivity|]. now rewrite IH.
Qed.

Lemma rows_loc_set (f : Frame) (l : Label) (c : Col) (v : cellv) :
  rows (loc_set f l c v) = add_row (rows f) l.
Proof.
  unfold loc_set, add_row, rows at 1, has_row. cbn [data].
  destruct (existsb (label_eqb l) (rows f)).
  - apply (map_fst_upd (fun x r => if label_eqb l x then set_in_row r c v else r)).
  - rewrite map_app. reflexivity.
Qed.

Lemma rows_loc_set_rows (f : Frame) (ls : list Label) (c : Col)
    (v : Label -> cellv) :
  rows (loc_set_rows f ls c v) = rows f.
Proof.
  unfold loc_set_rows, rows at 1. cbn [data].
  apply (map_fst_upd
           (fun x r => if existsb (label_eqb x) ls then set_in_row r c (v x) else r)).
Qed.

Lemma add_row_in (rs : list Label) (l : Label) :
  In l rs -> add_row rs l = rs.
Proof.
  intros H. unfold add_row. apply existsb_label_In in H. now rewrite H.
Qed.

Lemma loc_set_list_ok (f f' : Frame) (ls : list Label) (c : Col)
    (v : Label -> cellv) :
  loc_set_list f ls c v = Ok f' ->
  f' = loc_set_rows f ls c v /\ forallb (has_row f) ls = true.
Proof.
  unfold loc_set_list. destruct (forallb (has_row f) ls); intros H;
    inversion H; auto.
Qed.

Lemma loc_get_ok (f : Frame) (l : Label) (c : Col) (x : cellv) :
  loc_get f l c = Ok x ->
  x = cell f l c /\ In l (rows f) /\ In c (cols f).
Proof.
  unfold loc_get, has_row, has_col, col_in.
  destruct (existsb (label_eqb l) (rows f)) eqn:E1;
  destruct (existsb (Col_beq c) (cols f)) eqn:E2; cbn; intros H;
    inversion H; subst.
  split; [reflexivity|]. split; [now apply existsb_label_In|].
  apply existsb_exists in E2 as (y & Hy & Ey). apply Col_beq_eq in Ey.
  now subst.
Qed.

Lemma col_get_ok (f : Frame) (c : Col) (x : Label -> cellv) :
  col_get f c = Ok x -> x = (fun l => cell f l c).
Proof.
  unfold col_get. destruct (has_col f c); intros H; inversion H; auto.
Qed.

Lemma label_eqb_sym (a b : Label) : label_eqb a b = label_eqb b a.
Proof. destruct a, b; cbn; try reflexivity. apply Z.eqb_sym. Qed.

Lemma assoc_map_upd (P : Label -> bool) (k : Label -> Row -> Row) (l : Label)
    (d : list (Label * Row)) :
  assoc l (map (fun '(x, r) => (x, if P x then k x r else r)) d) =
  option_map (fun r => if P l then k l r else r) (assoc l d).
Proof.
  induction d as [|[x r] d IH]; cbn; [reflexivity|].
  destruct (label_eqb l x) eqn:E; [|exact IH].
  apply label_eqb_eq in E. subst. reflexivity.
Qed.

Lemma assoc_app_single (l x : Label) (r : Row) (d : list (Label * Row)) :
  assoc l (d ++ [(x, r)]) =
  match assoc l d with
  | Some r' => Some r'
  | None => if label_eqb l x then Some r else None
  end.
Proof.
  induction d as [|[y s] d IH]; cbn; [now destruct (label_eqb l x)|].
  destruct (label_eqb l y); [reflexivity | exact IH].
Qed.

Lemma assoc_some (l : Label) (d : list (Label * Row)) :
  In l (map fst d) -> exists r, assoc l d = Some r.
Proof.
  induction d as [|[x r] d IH]; cbn; [contradiction|]. intros [H|H].
  - subst. rewrite label_eqb_refl. eauto.
  - destruct (label_eqb l x); eauto.
Qed.

Lemma assoc_in (l : Label) (r : Row) (d : list (Label * Row)) :
  assoc l d = Some r -> In l (map fst d).
Proof.
  induction d as [|[x s] d IH]; cbn; [discriminate|].
  destruct (label_eqb l x) eqn:E; intros H.
  - apply label_eqb_eq in E. left. congruence.
  - right. apply IH, H.
Qed.

Lemma cell_absent (f : Frame) (l : Label) (c : Col) :
  ~ In l (rows f) -> cell f l c = None.
Proof.
  intros H. unfold cell. destruct (assoc l (data f)) eqn:A; [|reflexivity].
  exfalso. apply H. eapply assoc_in; exact A.
Qed.

Lemma cell_loc_set (f : Frame) (l l' : Label) (c c' : Col) (v : cellv) :
  cell (loc_set f l c v) l' c' =
  if label_eqb l l' && Col_beq c c' then v else cell f l' c'.
Proof.
  unfold cell, loc_set. cbn [data].
  destruct (has_row f l) eqn:H.
  - rewrite (assoc_map_upd (fun x => label_eqb l x) (fun _ r => set_in_row r c v)).
    destruct (assoc l' (data f)) eqn:A; cbn.
    + destruct (label_eqb l l'); cbn; [|reflexivity].
      unfold set_in_row. now destruct (Col_beq c c').
    + destruct (label_eqb l l') eqn:E; [|reflexivity].
      apply label_eqb_eq in E. subst.
      unfold has_row in H. apply existsb_label_In, assoc_some in H as [r Hr].
      congruence.
  - rewrite assoc_app_single. destruct (assoc l' (data f)) eqn:A.
    + destruct (label_eqb l l') eqn:E; [|reflexivity].
      apply label_eqb_eq in E. subst. apply assoc_in in A.
      unfold has_row in H. apply (proj2 (existsb_label_In _ _)) in A.
      unfold rows in H. congruence.
    + rewrite label_eqb_sym. destruct (label_eqb l l'); cbn; [|reflexivity].
      unfold set_in_row. now destruct (Col_beq c c').
Qed.

Lemma cell_loc_set_rows (f : Frame) (ls : list Label) (c c' : Col)
    (v : Label -> cellv) (l' : Label) :
  In l' (rows f) ->
  cell (loc_set_rows f ls c v) l' c' =
  if existsb (label_eqb l') ls && Col_beq c c' then v l' else cell f l' c'.
Proof.
  intros Hin. unfold cell, loc_set_rows. cbn [data].
  rewrite (assoc_map_upd (fun x => existsb (label_eqb x) ls)
                         (fun x r => set_in_row r c (v x))).
  apply assoc_some in Hin as [r Hr]. rewrite Hr. cbn.
  destruct (existsb (label_eqb l') ls); cbn; [|reflexivity].
  unfold set_in_row. now destruct (Col_beq c c').
Qed.

Lemma cell_loc_set_rows_other (f : Frame) (ls : list Label) (c c' : Col)
    (v : Label -> cellv) (l' : Label) :
  existsb (label_eqb l') ls = false \/ c <> c' ->
  cell (loc_set_rows f ls c v) l' c' = cell f l' c'.
Proof.
  intros H. unfold cell, loc_set_rows. cbn [data].
  rewrite (assoc_map_upd (fun x => existsb (label_eqb x) ls)
                         (fun x r => set_in_row r c (v x))).
  destruct (assoc l' (data f)); cbn; [|reflexivity].
  destruct H as [H|H].
  - rewrite H. reflexivity.
  - destruct (existsb (label_eqb l') ls); [|reflexivity].
    unfold set_in_row. rewrite (Col_beq_neq _ _ H). reflexivity.
Qed.

Lemma cell_loc_set_same (f : Frame) (l : Label) (c : Col) (v : cellv) :
  cell (loc_set f l c v) l c = v.
Proof. rewrite cell_loc_set, label_eqb_refl, Col_beq_refl. reflexivity. Qed.

Lemma cell_loc_set_other (f : Frame) (l l' : Label) (c c' : Col) (v : cellv) :
  l <> l' \/ c <> c' -> cell (loc_set f l c v) l' c' = cell f l' c'.
Proof.
  intros H. rewrite cell_loc_set.
  destruct (label_eqb l l') eqn:E1, (Col_beq c c') eqn:E2; try reflexivity.
  apply label_eqb_eq in E1. apply Col_beq_eq in E2. tauto.
Qed.

Lemma In_add_row (x l : Label) (rs : list Label) :
  In x rs -> In x (add_row rs l).
Proof.
  intros H. unfold add_row. destruct (existsb _ _); [exact H|].
  apply in_or_app. left. exact H.
Qed.

Lemma In_add_row_inv (x l : Label) (rs : list Label) :
  In x (add_row rs l) -> In x rs \/ x = l.
Proof.
  unfold add_row. destruct (existsb _ _); [auto|].
  intros H. apply in_app_or in H as [H|[H|[]]]; auto.
Qed.

Lemma add_row_idem (rs : list Label) (l : Label) :
  add_row (add_row rs l) l = add_row rs l.
Proof.
  apply add_row_in. unfold add_row. destruct (existsb _ _) eqn:E.
  - apply existsb_label_In. exact E.
  - apply in_or_app. right. left. reflexivity.
Qed.

Lemma bind_ok {A B : Type} (m : res A) (k : A -> res B) (b : B) :
  bind m k = Ok b -> exists a, m = Ok a /\ k a = Ok b.
Proof. destruct m as [a|e]; cbn; intros H; [eauto | discriminate]. Qed.

(** Peel the binds of a hypothesis [H : (let* ... ) = Ok _]. *)
Ltac break_binds H :=
  repeat (cbv zeta in H;
          first
            [ let a := fresh "a" in
              let Ea := fresh "E" in
              apply bind_ok in H as (a & Ea & H); cbv beta in H
            | injection H as H ]).

(** Skip the assignments of a nested frame that do not touch the cell. *)
Ltac skip_sets :=
  repeat first
    [ rewrite cell_loc_set_other
        by first [ right; congruence | left; congruence
                 | right; let E := fresh in intro E; subst;
                   match goal with
                   | Hc : ~ In _ _ |- _ => apply Hc; cbn;
                       repeat first [left; reflexivity | right]
                   end ]
    | rewrite cell_loc_set_rows_other
        by first [ right; congruence
                 | right; let E := fresh in intro E; subst;
                   match goal with
                   | Hc : ~ In _ _ |- _ => apply Hc; cbn;
                       repeat first [left; reflexivity | right]
                   end ] ].

(** ** The phases of [calculate_pro_forma] *)

Lemma construction_period_ok (p : PFInputs) (f f' : Frame) (cpy : Q) :
  construction_period p f cpy = Ok f' ->
  rows f' = rows f /\
  (forall l c, ~ In c [CapitalExpenditure; DebtContribution; EquityCapex] ->
     cell f' l c = cell f l c) /\
  (forall y, (- construction_time_years p + 1 <= y <= 0)%Z ->
     cell f' (Yr y) CapitalExpenditure = F (-1 * cpy) /\
     cell f' (Yr y) DebtContribution = F (cpy * (leverage_pct p / 100)) /\
     cell f' (Yr y) EquityCapex = F (-1 * cpy * (1 - leverage_pct p / 100))).
Proof.
  unfold construction_period. intros H. break_binds H.
  apply loc_set_list_ok in E as [-> Hf1].
  apply loc_set_list_ok in E0 as [-> Hf2].
  apply loc_set_list_ok in H as [-> Hf3].
  split; [rewrite !rows_loc_set_rows; reflexivity|].
  split.
  - intros l c Hc. skip_sets. reflexivity.
  - intros y Hy.
    set (cy := map Yr (range (- construction_time_years p + 1) 1)) in *.
    assert (Hcy : existsb (label_eqb (Yr y)) cy = true).
    { apply existsb_label_In. unfold cy, range. apply in_map.
      apply in_map_iff. exists (Z.to_nat (y + construction_time_years p - 1)).
      split; [lia|]. apply in_seq. lia. }
    assert (Hin : In (Yr y) (rows f)).
    { apply forallb_forall with (x := Yr y) in Hf1;
        [|apply existsb_label_In; exact Hcy].
      unfold has_row in Hf1. apply existsb_label_In. exact Hf1. }
    repeat split.
    + skip_sets. rewrite cell_loc_set_rows by exact Hin.
      rewrite Hcy. reflexivity.
    + skip_sets. rewrite cell_loc_set_rows by (rewrite rows_loc_set_rows; exact Hin).
      rewrite Hcy. reflexivity.
    + rewrite cell_loc_set_rows by (rewrite !rows_loc_set_rows; exact Hin).
      rewrite Hcy. reflexivity.
Qed.

Lemma operating_period_ok (p : PFInputs) (f f' : Frame) :
  operating_period p f = Ok f' ->
  rows f' = rows f /\
  (forall l c, ~ In c [FuelUnitCost; SolarFixedOMRate; BatteryFixedOMRate;
                      GeneratorFixedOMRate; GeneratorVariableOMRate;
                      BOSFixedOMRate; SoftOMRate; FixedOMCost; FuelCost;
                      VariableOMCost; TotalOperatingCosts; LCOE; Revenue;
                      EBITDA] ->
     cell f' l c = cell f l c).
Proof.
  unfold operating_period. intros H. break_binds H. subst f'.
  split.
  - rewrite !rows_loc_set_rows. reflexivity.
  - intros l c Hc. skip_sets. reflexivity.
Qed.

Lemma debt_tax_year_ok (p : PFInputs) (pmt dep : Q) (f f' : Frame) (year : Z) :
  debt_tax_year p pmt dep f year = Ok f' ->
  In (Yr year) (rows f) /\
  rows f' = (if (year <? debt_term_years p)%Z
             then add_row (rows f) (Yr (year + 1)) else rows f) /\
  (forall l c, ~ In c [InterestExpense; DebtService; PrincipalPayment;
                      DebtOutstandingYrStart; DepreciationSchedule;
                      DepreciationMACRS; TaxableIncome; InterestExpenseTax] ->
     cell f' l c = cell f l c) /\
  (forall l c, l <> Yr year -> c <> DebtOutstandingYrStart ->
     cell f' l c = cell f l c) /\
  cell f' (Yr year) DebtService = F (-1 * pmt).
Proof.
  unfold debt_tax_year. intros H. break_binds H.
  apply loc_get_ok in E as (_ & Hin & _).
  destruct (year <? debt_term_years p)%Z; break_binds E2; subst;
    (split; [exact Hin|]); repeat split.
  - rewrite !rows_loc_set.
    repeat (rewrite (add_row_in _ (Yr year))
              by (repeat apply In_add_row; exact Hin)).
    reflexivity.
  - intros l c Hc. skip_sets. reflexivity.
  - intros l c Hl Hc. skip_sets. reflexivity.
  - skip_sets. apply cell_loc_set_same.
  - rewrite !rows_loc_set.
    repeat (rewrite (add_row_in _ (Yr year))
              by (repeat apply In_add_row; exact Hin)).
    reflexivity.
  - intros l c Hc. skip_sets. reflexivity.
  - intros l c Hl Hc. skip_sets. reflexivity.
  - skip_sets. apply cell_loc_set_same.
Qed.

Lemma tax_and_cash_flow_ok (p : PFInputs) (f f' : Frame) :
  tax_and_cash_flow p f = Ok f' ->
  rows f' = rows f /\
  In AfterTaxNetEquityCashFlow (cols f') /\
  (forall l c, ~ In c [TaxBenefitLiability; AfterTaxNetEquityCashFlow] ->
     cell f' l c = cell f l c).
Proof.
  unfold tax_and_cash_flow. intros H. break_binds H. subst f'.
  split; [|split].
  - unfold col_set. rewrite !rows_loc_set_rows. reflexivity.
  - cbn. unfold add_col. destruct (col_in _ _) eqn:E5.
    + unfold col_in in E5. apply existsb_exists in E5 as (c & Hc & Hb).
      apply Col_beq_eq in Hb. subst. exact Hc.
    + apply in_or_app. right. left. reflexivity.
  - intros l c Hc. unfold col_set. skip_sets. reflexivity.
Qed.

Lemma debt_tax_loop_ok (p : PFInputs) (pmt dep : Q) (ys : list Z) (f f' : Frame) :
  debt_tax_loop p pmt dep ys f = Ok f' ->
  ((forall y, In y ys -> (y < debt_term_years p)%Z -> In (Yr (y + 1)) (rows f)) ->
   rows f' = rows f) /\
  (~ In NPVrow (rows f) -> ~ In NPVrow (rows f')) /\
  (forall l c, ~ In c [InterestExpense; DebtService; PrincipalPayment;
                      DebtOutstandingYrStart; DepreciationSchedule;
                      DepreciationMACRS; TaxableIncome; InterestExpenseTax] ->
     cell f' l c = cell f l c) /\
  (forall l c, (forall y, In y ys -> l <> Yr y) -> c <> DebtOutstandingYrStart ->
     cell f' l c = cell f l c) /\
  (forall y, In y ys -> cell f' (Yr y) DebtService = F (-1 * pmt)).
Proof.
  revert f. induction ys as [|y ys IH]; intros f H; cbn in H.
  - injection H as <-. repeat split; auto. intros y [].
  - break_binds H. rename a into g.
    apply debt_tax_year_ok in E as (Hin & Hrows & Hcell & Hother & Hds).
    destruct (IH g H) as (IHrows & IHnpv & IHcell & IHother & IHds).
    repeat split.
    + intros Hy. rewrite IHrows.
      * rewrite Hrows. destruct (y <? debt_term_years p)%Z eqn:Ey; [|reflexivity].
        apply add_row_in. apply Hy; [left; reflexivity | lia].
      * intros y' Hy' Hlt. rewrite Hrows.
        destruct (y <? debt_term_years p)%Z; [apply In_add_row|]; apply Hy; auto.
        right; exact Hy'. right; exact Hy'.
    + intros Hn. apply IHnpv. rewrite Hrows.
      destruct (y <? debt_term_years p)%Z; [|exact Hn].
      intros Hn'. apply In_add_row_inv in Hn' as [Hn'|Hn']; [auto|discriminate].
    + intros l c Hc. rewrite IHcell, Hcell by exact Hc. reflexivity.
    + intros l c Hl Hc. rewrite IHother, Hother; auto.
      * apply Hl. left. reflexivity.
      * intros y' Hy'. apply Hl. right. exact Hy'.
    + intros y' [<-|Hy'].
      * destruct (in_dec Z.eq_dec y ys) as [Hy|Hy]; [apply IHds; exact Hy|].
        rewrite IHother; [exact Hds| |discriminate].
        intros y'' Hy'' E. injection E as ->. contradiction.
      * apply IHds. exact Hy'.
Qed.

Lemma rows_assign_sim_row (f : Frame) (y : Z) (r : SimRow) :
  rows (assign_sim_row f y r) = add_row (rows f) (Yr y).
Proof. unfold assign_sim_row. rewrite !rows_loc_set, !add_row_idem. reflexivity. Qed.

Lemma populate_no_npv (f : Frame) (s : list SimRow) :
  ~ In NPVrow (rows f) -> ~ In NPVrow (rows (populate f s)).
Proof.
  unfold populate. generalize (unique_years s) as ys. intros ys.
  revert f. induction ys as [|y ys IH]; intros f Hf; cbn; [exact Hf|].
  apply IH. destruct (first_row y s); [|exact Hf].
  rewrite rows_assign_sim_row. intros H.
  apply In_add_row_inv in H as [H|H]; [auto|discriminate].
Qed.

Lemma populate_rows (f : Frame) (s : list SimRow) :
  (forall r, In r s -> In (Yr (op_year r)) (rows f)) ->
  rows (populate f s) = rows f.
Proof.
  unfold populate. generalize (unique_years s) as ys. intros ys.
  revert f. induction ys as [|y ys IH]; intros f Hs; cbn; [reflexivity|].
  destruct (first_row y s) as [r|] eqn:E; [|apply IH; exact Hs].
  apply find_some in E as [Hr Hy]. apply Z.eqb_eq in Hy. subst y.
  rewrite IH; rewrite rows_assign_sim_row.
  - apply add_row_in. apply Hs. exact Hr.
  - intros r' Hr'. apply In_add_row. apply Hs. exact Hr'.
Qed.

Lemma rows_empty_frame : rows empty_frame = map Yr years.
Proof. unfold rows, empty_frame. cbn [data]. rewrite map_map. reflexivity. Qed.

Lemma in_range (a b y : Z) : In y (range a b) <-> (a <= y < b)%Z.
Proof.
  unfold range. rewrite in_map_iff. split.
  - intros (k & <- & Hk). apply in_seq in Hk. lia.
  - intros Hy. exists (Z.to_nat (y - a)). split; [lia|]. apply in_seq. lia.
Qed.

(** The stages of [pro_forma_unrounded] on a run that returns a table. *)
Lemma pro_forma_unrounded_ok (p : PFInputs) (sim : list SimRow) (u : Frame) :
  pro_forma_unrounded p sim = Ok u ->
  exists pmt rp dep cpy f1 f2 f3 f4,
    fixed_debt_payment p = Ok pmt /\
    py_div (solar_capex p + bess_capex p) (total_hard_capex p) = Ok rp /\
    py_div (total_capex p) (inject_Z (construction_time_years p)) = Ok cpy /\
    construction_period p
      (loc_set (loc_set (populate empty_frame sim) (Yr 1) DebtOutstandingYrStart
                  (F (total_debt p)))
               (Yr 1) FederalITC
               (F (total_capex p * rp * (investment_tax_credit_pct p / 100))))
      cpy = Ok f1 /\
    operating_period p f1 = Ok f2 /\
    debt_tax_loop p pmt dep (filter (fun y => 0 <? y)%Z years) f2 = Ok f3 /\
    tax_and_cash_flow p f3 = Ok f4 /\
    u = npv_loop p f4.
Proof.
  unfold pro_forma_unrounded. intros H. break_binds H.
  do 8 eexists. repeat split; eassumption || (symmetry; eassumption).
Qed.

(** ** The NPV loop *)

Lemma dated_cells_inv (f0 g : Frame) (c : Col) :
  npv_inv f0 g -> dated_cells g c = dated_cells f0 c /\
                  dated_series g c = dated_series f0 c.
Proof.
  intros [_ [E|[r E]]]; unfold dated_cells, dated_series; rewrite E;
    [split; reflexivity|].
  rewrite !flat_map_app. cbn. rewrite !app_nil_r. split; reflexivity.
Qed.

Lemma cell_inv_dated (f0 g : Frame) (l : Label) (c : Col) :
  npv_inv f0 g -> l <> NPVrow -> cell g l c = cell f0 l c.
Proof.
  intros [_ [E|[r E]]] Hl; unfold cell; rewrite E; [reflexivity|].
  rewrite assoc_app_single.
  destruct (assoc l (data f0)); [reflexivity|].
  destruct (label_eqb l NPVrow) eqn:El; [|reflexivity].
  apply label_eqb_eq in El. contradiction.
Qed.

Lemma map_upd_absent (l : Label) (k : Row -> Row) (d : list (Label * Row)) :
  ~ In l (map fst d) ->
  map (fun '(l', r) => (l', if label_eqb l l' then k r else r)) d = d.
Proof.
  induction d as [|[x r] d IH]; cbn; intros H; [reflexivity|].
  destruct (label_eqb l x) eqn:E.
  - apply label_eqb_eq in E. subst. exfalso. apply H. left. reflexivity.
  - rewrite IH; [reflexivity|]. intros H'. apply H. right. exact H'.
Qed.

Lemma col_in_In (c : Col) (cs : list Col) : col_in c cs = true <-> In c cs.
Proof.
  unfold col_in. rewrite existsb_exists. split.
  - intros (x & Hx & E). apply Col_beq_eq in E. subst. exact Hx.
  - intros H. exists c. split; [exact H | apply Col_beq_refl].
Qed.

Lemma npv_inv_loc_set (f0 g : Frame) (c : Col) (v : cellv) :
  ~ In NPVrow (rows f0) -> In c (cols f0) -> npv_inv f0 g ->
  npv_inv f0 (loc_set g NPVrow c v).
Proof.
  intros Hn Hc [Hcols Hd]. split.
  - cbn. unfold add_col. rewrite Hcols.
    apply col_in_In in Hc. rewrite Hc. reflexivity.
  - right. unfold loc_set. cbn [data]. unfold has_row, rows.
    destruct Hd as [E|[r E]]; rewrite E.
    + destruct (existsb _ _) eqn:Ex.
      * apply existsb_label_In in Ex. contradiction.
      * eexists. reflexivity.
    + rewrite map_app, existsb_app. cbn [map fst existsb].
      rewrite label_eqb_refl, orb_true_r.
      rewrite map_app, map_upd_absent by exact Hn. cbn [map].
      rewrite label_eqb_refl. eexists. reflexivity.
Qed.

Lemma npv_step_ok (p : PFInputs) (f0 g : Frame) (c : Col) :
  ~ In NPVrow (rows f0) -> In c (cols f0) -> npv_inv f0 g ->
  npv_inv f0 (npv_step p g c) /\
  (forall c', cell (npv_step p g c) NPVrow c' =
     if Col_beq c c' && negb (Col_beq c OperatingYear)
     then npv_entry p f0 c else cell g NPVrow c').
Proof.
  intros Hn Hc Hg.
  destruct (dated_cells_inv f0 g c Hg) as [Ec Es].
  destruct (Col_beq c OperatingYear) eqn:Eo.
  - apply Col_beq_eq in Eo. subst c. cbn -[cell].
    split; [exact Hg|]. intros c'. rewrite andb_false_r. reflexivity.
  - unfold npv_step, npv_entry. rewrite Eo. cbn [negb].
    rewrite Ec, Es.
    destruct (col_in c _CALCULATE_TOTALS); [|destruct (col_in c _EXCLUDE_FROM_NPV)];
      (split; [apply npv_inv_loc_set; assumption|]);
      intros c'; rewrite cell_loc_set, label_eqb_refl, andb_true_r, andb_true_l;
      reflexivity.
Qed.

Lemma npv_fold_ok (p : PFInputs) (f0 : Frame) (cs : list Col) :
  ~ In NPVrow (rows f0) -> (forall c, In c cs -> In c (cols f0)) ->
  forall g, npv_inv f0 g ->
  npv_inv f0 (fold_left (npv_step p) cs g) /\
  (forall c', cell (fold_left (npv_step p) cs g) NPVrow c' =
     if col_in c' cs && negb (Col_beq c' OperatingYear)
     then npv_entry p f0 c' else cell g NPVrow c').
Proof.
  intros Hn. induction cs as [|c cs IH]; intros Hcs g Hg; cbn [fold_left].
  - split; [exact Hg|]. intros c'. reflexivity.
  - destruct (npv_step_ok p f0 g c Hn (Hcs c (or_introl eq_refl)) Hg)
      as [Hg' Hcell].
    destruct (IH (fun c' H => Hcs c' (or_intror H)) _ Hg') as [Hinv Hfold].
    split; [exact Hinv|]. intros c'. rewrite Hfold, Hcell.
    unfold col_in at 2. cbn [existsb]. fold (col_in c' cs).
    destruct (Col_beq c c') eqn:E.
    + apply Col_beq_eq in E. subst c'. rewrite Col_beq_refl.
      destruct (col_in c cs), (Col_beq c OperatingYear); reflexivity.
    + rewrite (Col_beq_neq c' c) by (intros ->; rewrite Col_beq_refl in E; discriminate).
      reflexivity.
Qed.

Lemma npv_loop_ok (p : PFInputs) (f0 : Frame) :
  ~ In NPVrow (rows f0) ->
  npv_inv f0 (npv_loop p f0) /\
  (forall c, cell (npv_loop p f0) NPVrow c =
     if col_in c (cols f0) && negb (Col_beq c OperatingYear)
     then npv_entry p f0 c else None).
Proof.
  intros Hn. unfold npv_loop.
  destruct (npv_fold_ok p f0 (cols f0) Hn (fun c H => H) f0
              (conj eq_refl (or_introl eq_refl))) as [Hinv Hcell].
  split; [exact Hinv|]. intros c. rewrite Hcell.
  rewrite (cell_absent f0 NPVrow c Hn). reflexivity.
Qed.

Lemma cell_round_frame (f : Frame) (l : Label) (c : Col) :
  cell (round_frame f) l c = option_map round2 (cell f l c).
Proof.
  unfold cell, round_frame. cbn [data]. induction (data f) as [|[x r] d IH];
    cbn; [reflexivity|].
  destruct (label_eqb l x); [reflexivity | exact IH].
Qed.

Lemma rows_round_frame (f : Frame) : rows (round_frame f) = rows f.
Proof.
  unfold rows, round_frame. cbn [data]. rewrite map_map.
  apply map_ext. intros [x r]. reflexivity.
Qed.

Lemma calculate_pro_forma_ok (sim : list SimRow) (p : PFInputs) (t : Frame) :
  calculate_pro_forma sim p = Ok t ->
  exists u, pro_forma_unrounded p sim = Ok u /\ t = round_frame u.
Proof.
  unfold calculate_pro_forma, fmap_res.
  destruct (pro_forma_unrounded p sim) as [u|e]; intros H; [|discriminate].
  injection H as <-. eauto.
Qed.

(** No stage before the NPV loop adds an [NPV] row. *)
Lemma stages_no_npv (p : PFInputs) (sim : list SimRow) (pmt rp dep cpy : Q)
    (f1 f2 f3 f4 : Frame) :
  construction_period p
    (loc_set (loc_set (populate empty_frame sim) (Yr 1) DebtOutstandingYrStart
                (F (total_debt p)))
             (Yr 1) FederalITC
             (F (total_capex p * rp * (investment_tax_credit_pct p / 100))))
    cpy = Ok f1 ->
  operating_period p f1 = Ok f2 ->
  debt_tax_loop p pmt dep (filter (fun y => 0 <? y)%Z years) f2 = Ok f3 ->
  tax_and_cash_flow p f3 = Ok f4 ->
  ~ In NPVrow (rows f4).
Proof.
  intros H1 H2 H3 H4.
  apply construction_period_ok in H1 as (R1 & _).
  apply operating_period_ok in H2 as (R2 & _).
  apply debt_tax_loop_ok in H3 as (_ & N3 & _).
  apply tax_and_cash_flow_ok in H4 as (R4 & _).
  rewrite R4. apply N3. rewrite R2, R1, !rows_loc_set.
  intros H. apply In_add_row_inv in H as [H|H]; [|discriminate].
  apply In_add_row_inv in H as [H|H]; [|discriminate].
  revert H. apply populate_no_npv. rewrite rows_empty_frame.
  intros H. apply in_map_iff in H as (y & E & _). discriminate.
Qed.

(** A concrete run that does not raise. *)
Ltac not_err E :=
  exfalso;
  match type of E with
  | ?m = Err _ =>
      let H := fresh in
      assert (H : match m with Ok _ => True | Err _ => False end)
        by (vm_compute; exact I);
      rewrite E in H; exact H
  end.

(** ** C4: debt service in every operating year *)

(** C4: whenever [calculate_pro_forma] returns a table [t] and the fixed
    payment is [pmt], the Debt Service cell of every year [y] in [1..20] is
    [-pmt] before the final rounding and [round2 (-pmt)] in [t], whatever
    [debt_term_years] is: years past the debt term are charged too. *)
Theorem debt_service_every_year (sim : list SimRow) (p : PFInputs) (t : Frame)
    (pmt : Q) (y : Z) :
  calculate_pro_forma sim p = Ok t ->
  fixed_debt_payment p = Ok pmt ->
  (1 <= y <= 20)%Z ->
  exists u, t = round_frame u /\
    cell u (Yr y) DebtService = F (-1 * pmt) /\
    cell t (Yr y) DebtService = F (round2 (-1 * pmt)).
Proof.
  intros Ht Hp Hy. apply calculate_pro_forma_ok in Ht as (u & Hu & ->).
  apply pro_forma_unrounded_ok in Hu
    as (pmt' & rp & dep & cpy & f1 & f2 & f3 & f4 & Hpmt & _ & _ & H1 & H2 & H3 & H4 & ->).
  rewrite Hp in Hpmt. injection Hpmt as <-.
  pose proof (stages_no_npv p sim pmt rp dep cpy f1 f2 f3 f4 H1 H2 H3 H4) as N.
  destruct (npv_loop_ok p f4 N) as [Hinv _].
  apply debt_tax_loop_ok in H3 as (_ & _ & _ & _ & Hds).
  apply tax_and_cash_flow_ok in H4 as (_ & _ & Hc4).
  assert (E : cell (npv_loop p f4) (Yr y) DebtService = F (-1 * pmt)).
  { rewrite (cell_inv_dated f4) by (assumption || discriminate).
    rewrite Hc4 by (intros [Hc|[Hc|[]]]; discriminate Hc).
    apply Hds. apply filter_In. split; [apply in_range; lia | apply Z.ltb_lt; lia]. }
  exists (npv_loop p f4). split; [reflexivity|]. split; [exact E|].
  rewrite cell_round_frame, E. reflexivity.
Qed.

Lemma debt_service_every_year_witness :
  match calculate_pro_forma Scenario.sim20 Scenario.base,
        fixed_debt_payment Scenario.base with
  | Ok t, Ok pmt =>
      exists u, t = round_frame u /\
        cell u (Yr 20) DebtService = F (-1 * pmt) /\
        cell t (Yr 20) DebtService = F (round2 (-1 * pmt))
  | _, _ => False
  end.
Proof.
  destruct (calculate_pro_forma Scenario.sim20 Scenario.base) as [t|e] eqn:E1;
    [|not_err E1].
  destruct (fixed_debt_payment Scenario.base) as [pmt|e] eqn:E2; [|not_err E2].
  apply (debt_service_every_year Scenario.sim20 Scenario.base t pmt 20 E1 E2).
  lia.
Defined.

(** ** C3: the construction-year split *)

(** C3 (counterexample): in the default scenario, at year 0 of the returned
    table, Equity Capex plus Debt Contribution is not Capital Expenditure. *)
Lemma construction_split_sum_counterexample :
  match calculate_pro_forma Scenario.sim20 Scenario.base with
  | Ok t =>
      match cell t (Yr 0) EquityCapex, cell t (Yr 0) DebtContribution,
            cell t (Yr 0) CapitalExpenditure with
      | Some e, Some d, Some c => ~ (e + d == c)
      | _, _, _ => False
      end
  | Err _ => False
  end.
Proof. vm_compute. intros H. discriminate H. Qed.

(** C3: whenever [calculate_pro_forma] returns a table [t], for every
    construction year [y] in [-(n-1)..0] ([n] the construction time), before
    the final rounding, Capital Expenditure is [-cpy], Debt Contribution is
    [+cpy * leverage] and Equity Capex is [-cpy * (1 - leverage)], with
    [cpy = total_capex / n]; so Equity Capex minus Debt Contribution is
    Capital Expenditure. *)
Theorem construction_split (sim : list SimRow) (p : PFInputs) (t : Frame) (y : Z) :
  calculate_pro_forma sim p = Ok t ->
  (- construction_time_years p + 1 <= y <= 0)%Z ->
  exists u, t = round_frame u /\
    cell u (Yr y) CapitalExpenditure =
      F (-1 * (total_capex p / inject_Z (construction_time_years p))) /\
    cell u (Yr y) DebtContribution =
      F (total_capex p / inject_Z (construction_time_years p) *
         (leverage_pct p / 100)) /\
    cell u (Yr y) EquityCapex =
      F (-1 * (total_capex p / inject_Z (construction_time_years p)) *
         (1 - leverage_pct p / 100)).
Proof.
  intros Ht Hy. apply calculate_pro_forma_ok in Ht as (u & Hu & ->).
  apply pro_forma_unrounded_ok in Hu
    as (pmt & rp & dep & cpy & f1 & f2 & f3 & f4 & _ & _ & Hcpy & H1 & H2 & H3 & H4 & ->).
  apply py_div_ok in Hcpy as [-> _].
  pose proof (stages_no_npv p sim pmt rp dep _ f1 f2 f3 f4 H1 H2 H3 H4) as N.
  destruct (npv_loop_ok p f4 N) as [Hinv _].
  apply construction_period_ok in H1 as (_ & _ & Hc1).
  apply operating_period_ok in H2 as (_ & Hc2).
  apply debt_tax_loop_ok in H3 as (_ & _ & Hc3 & _).
  apply tax_and_cash_flow_ok in H4 as (_ & _ & Hc4).
  destruct (Hc1 y Hy) as (Ecap & Edebt & Eeq).
  exists (npv_loop p f4). split; [reflexivity|].
  repeat split;
    rewrite (cell_inv_dated f4) by (assumption || discriminate);
    rewrite Hc4, Hc3, Hc2 by (cbn; intuition discriminate);
    assumption.
Qed.

Lemma construction_split_witness :
  match calculate_pro_forma Scenario.sim20 Scenario.base with
  | Ok t =>
      exists u, t = round_frame u /\
        cell u (Yr 0) CapitalExpenditure =
          F (-1 * (total_capex Scenario.base /
                   inject_Z (construction_time_years Scenario.base))) /\
        cell u (Yr 0) DebtContribution =
          F (total_capex Scenario.base /
             inject_Z (construction_time_years Scenario.base) *
             (leverage_pct Scenario.base / 100)) /\
        cell u (Yr 0) EquityCapex =
          F (-1 * (total_capex Scenario.base /
                   inject_Z (construction_time_years Scenario.base)) *
             (1 - leverage_pct Scenario.base / 100))
  | Err _ => False
  end.
Proof.
  destruct (calculate_pro_forma Scenario.sim20 Scenario.base) as [t|e] eqn:E;
    [|not_err E].
  apply (construction_split Scenario.sim20 Scenario.base t 0 E).
  vm_compute. split; discriminate.
Defined.

(** ** C2: the row index *)

(** With a one-year construction period the table still has a row for year
    [-1], so its rows are not the years [0..20] followed by [NPV]. *)
Lemma row_index_counterexample :
  match calculate_pro_forma Scenario.sim20
          (Scenario.with_construction 1 Scenario.base) with
  | Ok t => rows t <> map Yr (range 0 21) ++ [NPVrow]
  | Err _ => False
  end.
Proof. vm_compute. intros H. discriminate H. Qed.

(** C2: whenever [calculate_pro_forma] returns a table, with a debt term of at
    most 20 years and simulation years within [-1..20], its rows are exactly
    the years [-1..20] in order followed by one [NPV] row, whatever the
    construction time. *)
Theorem row_index_fixed (sim : list SimRow) (p : PFInputs) (t : Frame) :
  calculate_pro_forma sim p = Ok t ->
  (debt_term_years p <= 20)%Z ->
  (forall r, In r sim -> (-1 <= op_year r <= 20)%Z) ->
  rows t = map Yr (range (-1) 21) ++ [NPVrow].
Proof.
  intros Ht Hdt Hsim. apply calculate_pro_forma_ok in Ht as (u & Hu & ->).
  rewrite rows_round_frame.
  apply pro_forma_unrounded_ok in Hu
    as (pmt & rp & dep & cpy & f1 & f2 & f3 & f4 & _ & _ & _ & H1 & H2 & H3 & H4 & ->).
  pose proof (stages_no_npv p sim pmt rp dep cpy f1 f2 f3 f4 H1 H2 H3 H4) as N.
  apply construction_period_ok in H1 as (R1 & _).
  apply operating_period_ok in H2 as (R2 & _).
  apply debt_tax_loop_ok in H3 as (R3 & _).
  apply tax_and_cash_flow_ok in H4 as (R4 & HA & _).
  assert (R0 : rows f2 = map Yr years).
  { rewrite R2, R1, !rows_loc_set, add_row_idem.
    rewrite populate_rows.
    - rewrite rows_empty_frame. apply add_row_in.
      apply in_map, in_range. lia.
    - intros r Hr. rewrite rows_empty_frame.
      apply in_map, in_range. specialize (Hsim r Hr). lia. }
  assert (R : rows f4 = map Yr years).
  { rewrite R4, R3, R0; [reflexivity|].
    intros y Hy Hlt. apply filter_In in Hy as [Hy _].
    apply in_range in Hy. rewrite R0. apply in_map, in_range. lia. }
  destruct (npv_loop_ok p f4 N) as [[_ [Ed|[r Ed]]] Hcell].
  - exfalso.
    specialize (Hcell AfterTaxNetEquityCashFlow).
    apply col_in_In in HA. rewrite HA in Hcell.
    unfold cell at 1 in Hcell. rewrite Ed in Hcell. fold (cell f4 NPVrow AfterTaxNetEquityCashFlow) in Hcell.
    rewrite cell_absent in Hcell by exact N.
    unfold npv_entry in Hcell. cbn -[calculate_npv dated_series] in Hcell.
    discriminate Hcell.
  - unfold rows at 1. rewrite Ed, map_app. fold (rows f4). rewrite R. reflexivity.
Qed.

Lemma row_index_fixed_witness :
  match calculate_pro_forma Scenario.sim20 Scenario.base with
  | Ok t => rows t = map Yr (range (-1) 21) ++ [NPVrow]
  | Err _ => False
  end.
Proof.
  destruct (calculate_pro_forma Scenario.sim20 Scenario.base) as [t|e] eqn:E;
    [|not_err E].
  apply (row_index_fixed Scenario.sim20 Scenario.base t E).
  - vm_compute. discriminate.
  - intros r Hr. unfold Scenario.sim20 in Hr.
    apply in_map_iff in Hr as (y & <- & Hy). apply in_range in Hy.
    cbn. lia.
Defined.

(** ** C6: the NPV row *)

(** C6: whenever [calculate_pro_forma] returns a table [t], [t] is the
    cell-wise 2-decimal rounding of a table [u] in which, for every column
    [c] of the table, the [NPV] entry is the NaN-skipping sum of [c] over the
    dated rows for the five energy totals, NaN for the rate, unit and
    informational columns of [_EXCLUDE_FROM_NPV] and for [Operating Year],
    and [calculate_npv] of [c] over the dated rows (NaN as 0) at the cost of
    equity with the construction-time shift for every other column. *)
Theorem npv_row_entries (sim : list SimRow) (p : PFInputs) (t : Frame) :
  calculate_pro_forma sim p = Ok t ->
  exists u, t = round_frame u /\
    (forall l c, cell t l c = option_map round2 (cell u l c)) /\
    forall c, In c (cols u) ->
      (In c _CALCULATE_TOTALS ->
         cell u NPVrow c = F (sum_skipna (dated_cells u c))) /\
      (In c _EXCLUDE_FROM_NPV \/ c = OperatingYear -> cell u NPVrow c = None) /\
      (~ In c _CALCULATE_TOTALS -> ~ In c _EXCLUDE_FROM_NPV ->
       c <> OperatingYear ->
       cell u NPVrow c =
         F (calculate_npv (dated_series u c) (cost_of_equity_pct p)
                          (construction_time_years p))).
Proof.
  intros Ht. apply calculate_pro_forma_ok in Ht as (u & Hu & ->).
  apply pro_forma_unrounded_ok in Hu
    as (pmt & rp & dep & cpy & f1 & f2 & f3 & f4 & _ & _ & _ & H1 & H2 & H3 & H4 & ->).
  pose proof (stages_no_npv p sim pmt rp dep cpy f1 f2 f3 f4 H1 H2 H3 H4) as N.
  destruct (npv_loop_ok p f4 N) as [Hinv Hcell].
  exists (npv_loop p f4). split; [reflexivity|].
  split; [intros l c; apply cell_round_frame|].
  intros c Hc.
  destruct (dated_cells_inv f4 _ c Hinv) as [Ec Es]. rewrite Ec, Es.
  destruct Hinv as [Hcols _]. rewrite Hcols in Hc.
  rewrite Hcell. apply col_in_In in Hc. rewrite Hc, andb_true_l.
  split; [|split].
  - intros Ht. cbn in Ht.
    repeat destruct Ht as [<-|Ht]; try contradiction; reflexivity.
  - intros [Hx| ->]; [|reflexivity]. cbn in Hx.
    repeat destruct Hx as [<-|Hx]; try contradiction; reflexivity.
  - intros Ht Hx Ho.
    rewrite (Col_beq_neq c OperatingYear Ho). cbn [negb].
    unfold npv_entry. rewrite (Col_beq_neq c OperatingYear Ho). cbn [negb].
    destruct (col_in c _CALCULATE_TOTALS) eqn:E1;
      [apply col_in_In in E1; contradiction|].
    destruct (col_in c _EXCLUDE_FROM_NPV) eqn:E2;
      [apply col_in_In in E2; contradiction|].
    reflexivity.
Qed.

Lemma npv_row_entries_witness :
  match calculate_pro_forma Scenario.sim20 Scenario.base with
  | Ok t =>
      exists u, t = round_frame u /\
        (forall l c, cell t l c = option_map round2 (cell u l c)) /\
        forall c, In c (cols u) ->
          (In c _CALCULATE_TOTALS ->
             cell u NPVrow c = F (sum_skipna (dated_cells u c))) /\
          (In c _EXCLUDE_FROM_NPV \/ c = OperatingYear -> cell u NPVrow c = None) /\
          (~ In c _CALCULATE_TOTALS -> ~ In c _EXCLUDE_FROM_NPV ->
           c <> OperatingYear ->
           cell u NPVrow c =
             F (calculate_npv (dated_series u c)
                  (cost_of_equity_pct Scenario.base)
                  (construction_time_years Scenario.base)))
  | Err _ => False
  end.
Proof.
  destruct (calculate_pro_forma Scenario.sim20 Scenario.base) as [t|e] eqn:E;
    [|not_err E].
  exact (npv_row_entries Scenario.sim20 Scenario.base t E).
Defined.

(** * Further properties of [calculations.py] *)

(** ** [calculate_npv] *)

Lemma npv_fold_closed (vs : list (Z * Q)) (r : Q) (n : Z) (a : Q) :
  fold_left (fun acc '(t, v) => Qred (acc + v / (1 + r / 100) ^ (t + n))) vs a ==
  a + sum_Q (map (fun '(t, v) => v / (1 + r / 100) ^ (t + n)) vs).
Proof.
  unfold sum_Q. revert a.
  induction vs as [|[t v] vs IH]; intros a; cbn [fold_left map fold_right].
  - ring.
  - rewrite IH, Qred_correct. ring.
Qed.

Lemma npv_closed (vs : list (Z * Q)) (r : Q) (n : Z) :
  calculate_npv vs r n ==
  sum_Q (map (fun '(t, v) => v / (1 + r / 100) ^ (t + n)) vs).
Proof. unfold calculate_npv. rewrite npv_fold_closed. ring. Qed.

(** At a zero discount rate the NPV is the plain sum of the cash flows,
    whatever the construction-time shift. *)
Theorem npv_zero_discount (vs : list (Z * Q)) (n : Z) :
  calculate_npv vs 0 n == sum_Q (map snd vs).
Proof.
  rewrite npv_closed. unfold sum_Q.
  induction vs as [|[t v] vs IH]; cbn [map fold_right snd]; [reflexivity|].
  rewrite IH.
  assert (E : v / (1 + 0 / 100) ^ (t + n) == v).
  { assert (E1 : 1 + 0 / 100 == 1) by reflexivity.
    rewrite E1, Qpower_1. field. }
  rewrite E. reflexivity.
Qed.

(** One more construction year divides the NPV by one more discount
    factor. *)
Theorem npv_construction_shift (vs : list (Z * Q)) (r : Q) (n : Z) :
  ~ 1 + r / 100 == 0 ->
  calculate_npv vs r (n + 1) == calculate_npv vs r n / (1 + r / 100).
Proof.
  intros Hd. rewrite !npv_closed. unfold sum_Q.
  induction vs as [|[t v] vs IH]; cbn [map fold_right].
  - unfold Qdiv. ring.
  - rewrite IH.
    replace (t + (n + 1))%Z with (t + n + 1)%Z by lia.
    rewrite Qpower_plus by exact Hd. rewrite Qpower_1_r.
    assert (Hp : ~ (1 + r / 100) ^ (t + n) == 0) by (apply Qpower_not_0; exact Hd).
    field. split; [exact Hp|]. intros E. apply Hd.
    setoid_replace (1 + r / 100) with ((100 + r) / 100) by field.
    rewrite E. reflexivity.
Qed.

Lemma npv_construction_shift_witness :
  ~ 1 + 10 / 100 == 0 /\
  calculate_npv [((-1)%Z, 5); (0%Z, -3); (4%Z, 7)] 10 (2 + 1) ==
  calculate_npv [((-1)%Z, 5); (0%Z, -3); (4%Z, 7)] 10 2 / (1 + 10 / 100).
Proof.
  assert (H : ~ 1 + 10 / 100 == 0) by (intros E; discriminate E).
  split; [exact H|]. apply npv_construction_shift. exact H.
Defined.

(** At a nonnegative discount rate, cash flows that are nonnegative and not
    dated before the present have an NPV between 0 and their plain sum. *)
Theorem npv_bounds (vs : list (Z * Q)) (r : Q) (n : Z) :
  0 <= r ->
  (forall t v, In (t, v) vs -> 0 <= v /\ (0 <= t + n)%Z) ->
  0 <= calculate_npv vs r n /\ calculate_npv vs r n <= sum_Q (map snd vs).
Proof.
  intros Hr Hvs. rewrite npv_closed. unfold sum_Q.
  assert (Hd : 1 <= 1 + r / 100).
  { assert (0 <= r / 100) by (apply Qle_shift_div_l; [reflexivity | lra]). lra. }
  induction vs as [|[t v] vs IH]; cbn [map fold_right snd]; [lra|].
  destruct (Hvs t v (or_introl eq_refl)) as [Hv Htn].
  destruct IH as [IH1 IH2]; [intros t' v' H; apply Hvs; right; exact H|].
  set (q := (1 + r / 100) ^ (t + n)).
  assert (Hq : 1 <= q) by (apply Qpower_1_le; assumption).
  assert (H0 : 0 <= v / q) by (apply Qle_shift_div_l; lra).
  assert (H1 : v / q <= v).
  { apply Qle_shift_div_r; [lra|].
    assert (0 <= v * (q - 1)) by (apply Qmult_le_0_compat; lra).
    lra. }
  lra.
Qed.

Lemma npv_bounds_witness :
  0 <= 10 /\
  (forall t v, In (t, v) [((-1)%Z, 5); (0%Z, 0); (4%Z, 7)] -> 0 <= v /\ (0 <= t + 2)%Z) /\
  0 <= calculate_npv [((-1)%Z, 5); (0%Z, 0); (4%Z, 7)] 10 2 /\
  calculate_npv [((-1)%Z, 5); (0%Z, 0); (4%Z, 7)] 10 2 <=
    sum_Q (map snd [((-1)%Z, 5); (0%Z, 0); (4%Z, 7)]).
Proof.
  assert (Hr : 0 <= 10) by lra.
  assert (Hv : forall t v, In (t, v) [((-1)%Z, 5); (0%Z, 0); (4%Z, 7)] ->
                0 <= v /\ (0 <= t + 2)%Z).
  { intros t v [E|[E|[E|[]]]]; injection E as <- <-; split; (lra || lia). }
  split; [exact Hr|]. split; [exact Hv|].
  apply npv_bounds; assumption.
Defined.

(** ** [calculate_capex] *)

Lemma Qplus_nonneg (a b : Q) : 0 <= a -> 0 <= b -> 0 <= a + b.
Proof. intros. lra. Qed.

Lemma Qdiv_nonneg (a c : Q) : 0 <= a -> 0 < c -> 0 <= a / c.
Proof. intros Ha Hc. apply Qle_shift_div_l; [exact Hc | lra]. Qed.

Ltac nonneg :=
  repeat first
    [ apply Qmult_le_0_compat | apply Qplus_nonneg
    | apply Qdiv_nonneg; [|reflexivity] | apply Qinv_le_0_compat
    | assumption | lra ].

(** With nonnegative capacities, unit costs and soft-cost percentages, all
    five CAPEX subtotals are nonnegative. *)
Theorem capex_nonneg (i : CapexEstimator.Inputs) :
  Forall (Qle 0)
    [CapexEstimator.solar_pv_capacity_mw i; CapexEstimator.pv_modules i;
     CapexEstimator.pv_inverters i; CapexEstimator.pv_racking i;
     CapexEstimator.pv_balance_system i; CapexEstimator.pv_labor i;
     CapexEstimator.bess_max_power_mw i; CapexEstimator.bess_units i;
     CapexEstimator.bess_balance_of_system i; CapexEstimator.bess_labor i;
     CapexEstimator.generator_capacity_mw i; CapexEstimator.gensets i;
     CapexEstimator.gen_balance_of_system i; CapexEstimator.gen_labor i;
     CapexEstimator.datacenter_load_mw i; CapexEstimator.si_microgrid i;
     CapexEstimator.si_controls i; CapexEstimator.si_labor i;
     CapexEstimator.soft_costs_general_conditions i;
     CapexEstimator.soft_costs_epc_overhead i;
     CapexEstimator.soft_costs_design_engineering i;
     CapexEstimator.soft_costs_permitting i;
     CapexEstimator.soft_costs_startup i;
     CapexEstimator.soft_costs_insurance i;
     CapexEstimator.soft_costs_taxes i] ->
  let b := CapexEstimator.calculate_capex i in
  0 <= CapexEstimator.solar b /\ 0 <= CapexEstimator.bess b /\
  0 <= CapexEstimator.generator b /\ 0 <= CapexEstimator.system_integration b /\
  0 <= CapexEstimator.soft_costs b.
Proof.
  intros H.
  repeat match goal with
         | H : Forall _ (_ :: _) |- _ => inversion_clear H
         end.
  cbn. unfold CapexEstimator.soft_costs_raw, CapexEstimator.total_hard_costs,
    CapexEstimator.soft_cost_pct_sum, CapexEstimator.solar_capex,
    CapexEstimator.bess_capex, CapexEstimator.bess_system_mwh,
    CapexEstimator._BESS_HRS_STORAGE, CapexEstimator.generator_capex,
    CapexEstimator.system_integration_capex.
  repeat split; nonneg.
Qed.

Lemma capex_nonneg_witness :
  let i := Scenario.capex_inputs in
  Forall (Qle 0)
    [CapexEstimator.solar_pv_capacity_mw i; CapexEstimator.pv_modules i;
     CapexEstimator.pv_inverters i; CapexEstimator.pv_racking i;
     CapexEstimator.pv_balance_system i; CapexEstimator.pv_labor i;
     CapexEstimator.bess_max_power_mw i; CapexEstimator.bess_units i;
     CapexEstimator.bess_balance_of_system i; CapexEstimator.bess_labor i;
     CapexEstimator.generator_capacity_mw i; CapexEstimator.gensets i;
     CapexEstimator.gen_balance_of_system i; CapexEstimator.gen_labor i;
     CapexEstimator.datacenter_load_mw i; CapexEstimator.si_microgrid i;
     CapexEstimator.si_controls i; CapexEstimator.si_labor i;
     CapexEstimator.soft_costs_general_conditions i;
     CapexEstimator.soft_costs_epc_overhead i;
     CapexEstimator.soft_costs_design_engineering i;
     CapexEstimator.soft_costs_permitting i;
     CapexEstimator.soft_costs_startup i;
     CapexEstimator.soft_costs_insurance i;
     CapexEstimator.soft_costs_taxes i] /\
  (let b := CapexEstimator.calculate_capex i in
   0 <= CapexEstimator.solar b /\ 0 <= CapexEstimator.bess b /\
   0 <= CapexEstimator.generator b /\ 0 <= CapexEstimator.system_integration b /\
   0 <= CapexEstimator.soft_costs b).
Proof.
  intros i.
  assert (H : Forall (Qle 0)
    [CapexEstimator.solar_pv_capacity_mw i; CapexEstimator.pv_modules i;
     CapexEstimator.pv_inverters i; CapexEstimator.pv_racking i;
     CapexEstimator.pv_balance_system i; CapexEstimator.pv_labor i;
     CapexEstimator.bess_max_power_mw i; CapexEstimator.bess_units i;
     CapexEstimator.bess_balance_of_system i; CapexEstimator.bess_labor i;
     CapexEstimator.generator_capacity_mw i; CapexEstimator.gensets i;
     CapexEstimator.gen_balance_of_system i; CapexEstimator.gen_labor i;
     CapexEstimator.datacenter_load_mw i; CapexEstimator.si_microgrid i;
     CapexEstimator.si_controls i; CapexEstimator.si_labor i;
     CapexEstimator.soft_costs_general_conditions i;
     CapexEstimator.soft_costs_epc_overhead i;
     CapexEstimator.soft_costs_design_engineering i;
     CapexEstimator.soft_costs_permitting i;
     CapexEstimator.soft_costs_startup i;
     CapexEstimator.soft_costs_insurance i;
     CapexEstimator.soft_costs_taxes i]).
  { repeat constructor; cbn; lra. }
  split; [exact H|]. exact (capex_nonneg i H).
Defined.

(** ** Cell equations of the pro forma *)

Lemma Z_eqb_succ_r (y : Z) : (y =? y + 1)%Z = false.
Proof. apply Z.eqb_neq. lia. Qed.

Lemma Z_eqb_succ_l (y : Z) : (y + 1 =? y)%Z = false.
Proof. apply Z.eqb_neq. lia. Qed.

(** Evaluate the scalar assignments in front of a cell. *)
Ltac cell_simp :=
  repeat rewrite cell_loc_set;
  cbn [label_eqb Col_beq andb];
  rewrite ?Z.eqb_refl, ?Z_eqb_succ_r, ?Z_eqb_succ_l;
  cbn [andb].

Lemma debt_tax_year_cells (p : PFInputs) (pmt dep : Q) (f f' : Frame) (y : Z) :
  debt_tax_year p pmt dep f y = Ok f' ->
  cell f' (Yr y) DebtOutstandingYrStart = cell f (Yr y) DebtOutstandingYrStart /\
  cell f' (Yr y) InterestExpense =
    lift1 (interest_expense p) (cell f (Yr y) DebtOutstandingYrStart) /\
  cell f' (Yr y) PrincipalPayment =
    lift2 principal_payment (F (-1 * pmt)) (cell f' (Yr y) InterestExpense) /\
  ((y <? debt_term_years p)%Z = true ->
   cell f' (Yr (y + 1)) DebtOutstandingYrStart =
     lift2 next_debt_outstanding (cell f (Yr y) DebtOutstandingYrStart)
       (cell f' (Yr y) PrincipalPayment)) /\
  (forall l, (y <? debt_term_years p)%Z = false \/ l <> Yr (y + 1) ->
   cell f' l DebtOutstandingYrStart = cell f l DebtOutstandingYrStart) /\
  cell f' (Yr y) DepreciationSchedule = F (depreciation_pct p y) /\
  cell f' (Yr y) DepreciationMACRS =
    (F (-1) * (F (depreciation_pct p y) / F 100) * F dep)%cell /\
  cell f' (Yr y) TaxableIncome =
    (cell f (Yr y) EBITDA + cell f' (Yr y) DepreciationMACRS +
     cell f' (Yr y) InterestExpense)%cell /\
  cell f' (Yr y) InterestExpenseTax = cell f' (Yr y) InterestExpense.
Proof.
  unfold debt_tax_year. intros H. break_binds H.
  repeat match goal with
         | E : loc_get _ _ _ = Ok _ |- _ => apply loc_get_ok in E as (-> & _ & _)
         end.
  destruct (y <? debt_term_years p)%Z eqn:Edt.
  - break_binds E2.
    repeat match goal with
           | E : loc_get _ _ _ = Ok _ |- _ => apply loc_get_ok in E as (-> & _ & _)
           end.
    subst. repeat split;
      first [ intros l [Hl|Hl]; [discriminate Hl|];
              rewrite !cell_loc_set_other; [reflexivity| ..];
              first [ left; congruence | right; discriminate ]
            | intros _; cell_simp; reflexivity
            | cell_simp; reflexivity ].
  - injection E2 as <-. subst.
    repeat split;
      first [ intros l _; rewrite !cell_loc_set_other; [reflexivity| ..];
              right; discriminate
            | intros Hc; discriminate Hc
            | cell_simp; reflexivity ].
Qed.

Lemma debt_tax_loop_do (p : PFInputs) (pmt dep : Q) (ys : list Z) (f f' : Frame) :
  debt_tax_loop p pmt dep ys f = Ok f' ->
  forall l, (forall y, In y ys -> (y <? debt_term_years p)%Z = true ->
                       l <> Yr (y + 1)) ->
  cell f' l DebtOutstandingYrStart = cell f l DebtOutstandingYrStart.
Proof.
  revert f. induction ys as [|y ys IH]; intros f H l Hl; cbn in H.
  - injection H as <-. reflexivity.
  - break_binds H. rename a into g.
    rewrite (IH g H l) by (intros y' Hy'; apply Hl; right; exact Hy').
    apply debt_tax_year_cells in E as (_ & _ & _ & _ & Hdo & _).
    apply Hdo. destruct (y <? debt_term_years p)%Z eqn:Ey; [|left; reflexivity].
    right. apply Hl; [left; reflexivity | exact Ey].
Qed.

Lemma debt_tax_loop_cells (p : PFInputs) (pmt dep : Q) (ys : list Z) (f f' : Frame) :
  debt_tax_loop p pmt dep ys f = Ok f' ->
  StronglySorted Z.lt ys ->
  forall y, In y ys ->
  cell f' (Yr y) InterestExpense =
    lift1 (interest_expense p) (cell f' (Yr y) DebtOutstandingYrStart) /\
  cell f' (Yr y) PrincipalPayment =
    lift2 principal_payment (F (-1 * pmt)) (cell f' (Yr y) InterestExpense) /\
  ((y <? debt_term_years p)%Z = true ->
   cell f' (Yr (y + 1)) DebtOutstandingYrStart =
     lift2 next_debt_outstanding (cell f' (Yr y) DebtOutstandingYrStart)
       (cell f' (Yr y) PrincipalPayment)) /\
  cell f' (Yr y) DepreciationSchedule = F (depreciation_pct p y) /\
  cell f' (Yr y) DepreciationMACRS =
    (F (-1) * (F (depreciation_pct p y) / F 100) * F dep)%cell /\
  cell f' (Yr y) TaxableIncome =
    (cell f' (Yr y) EBITDA + cell f' (Yr y) DepreciationMACRS +
     cell f' (Yr y) InterestExpense)%cell /\
  cell f' (Yr y) InterestExpenseTax = cell f' (Yr y) InterestExpense.
Proof.
  revert f. induction ys as [|y0 ys IH]; intros f H Hs y Hy; [destruct Hy|].
  cbn in H. break_binds H. rename a into g.
  inversion Hs as [|? ? Hs' Hall]; subst.
  destruct Hy as [<-|Hy]; [|exact (IH g H Hs' y Hy)].
  rewrite Forall_forall in Hall.
  pose proof (debt_tax_year_cells p pmt dep f g y0 E)
    as (Y1 & Y2 & Y3 & Y4 & _ & Y6 & Y7 & Y8 & Y9).
  apply debt_tax_year_ok in E as (_ & _ & Wc & _ & _).
  pose proof (debt_tax_loop_do p pmt dep ys g f' H) as Ld.
  apply debt_tax_loop_ok in H as (_ & _ & Lc & Lo & _).
  assert (K1 : forall c, c <> DebtOutstandingYrStart ->
                 cell f' (Yr y0) c = cell g (Yr y0) c).
  { intros c Hc. apply Lo; [|exact Hc].
    intros y' Hy' Ey. injection Ey as <-. specialize (Hall y0 Hy'). lia. }
  assert (K2 : cell f' (Yr y0) DebtOutstandingYrStart =
               cell g (Yr y0) DebtOutstandingYrStart).
  { apply Ld. intros y' Hy' _ Ey. injection Ey as Ey.
    specialize (Hall y' Hy'). lia. }
  assert (K3 : cell f' (Yr (y0 + 1)) DebtOutstandingYrStart =
               cell g (Yr (y0 + 1)) DebtOutstandingYrStart).
  { apply Ld. intros y' Hy' _ Ey. injection Ey as Ey.
    specialize (Hall y' Hy'). lia. }
  assert (K4 : cell g (Yr y0) EBITDA = cell f (Yr y0) EBITDA).
  { apply Wc. cbn. intuition discriminate. }
  rewrite K2, K3. rewrite !K1 by discriminate.
  repeat split.
  - rewrite Y2, Y1. reflexivity.
  - exact Y3.
  - intros Hlt. rewrite Y4 by exact Hlt. rewrite Y1. reflexivity.
  - exact Y6.
  - exact Y7.
  - rewrite Y8, K4. reflexivity.
  - exact Y9.
Qed.

Lemma cell_loc_set_rows_same (f : Frame) (ls : list Label) (c : Col)
    (v : Label -> cellv) (l : Label) :
  In l (rows f) -> existsb (label_eqb l) ls = true ->
  cell (loc_set_rows f ls c v) l c = v l.
Proof.
  intros Hin Hl. rewrite cell_loc_set_rows by exact Hin.
  rewrite Hl, Col_beq_refl. reflexivity.
Qed.

(** Evaluate the column assignments in front of a cell of a present row. *)
Ltac rows_simp Hin Hx :=
  repeat first
    [ rewrite cell_loc_set_rows_same
        by first [ rewrite ?rows_loc_set_rows; exact Hin | exact Hx ]
    | rewrite cell_loc_set_rows_other by (right; discriminate) ];
  cbv beta.

Lemma npv_inv_rows (f0 g : Frame) (l : Label) :
  npv_inv f0 g -> In l (rows g) -> l <> NPVrow -> In l (rows f0).
Proof.
  intros [_ [E|[r E]]] H Hl; unfold rows in *; rewrite E in H; [exact H|].
  rewrite map_app in H. apply in_app_or in H as [H|[H|[]]]; [exact H|].
  cbn in H. congruence.
Qed.

Lemma tax_and_cash_flow_cells (p : PFInputs) (f f' : Frame) :
  tax_and_cash_flow p f = Ok f' ->
  forall l, In l (rows f) ->
  cell f' l TaxBenefitLiability =
    (F (-1) * (cell f l TaxableIncome * F (combined_tax_rate_pct p / 100)) +
     F (fillna0 (cell f l FederalITC)))%cell /\
  cell f' l AfterTaxNetEquityCashFlow =
    F (fillna0 (cell f l EBITDA) + fillna0 (cell f l DebtService) +
       fillna0 (cell f' l TaxBenefitLiability) + fillna0 (cell f l EquityCapex)).
Proof.
  unfold tax_and_cash_flow. intros H l Hin. break_binds H.
  repeat match goal with
         | E : col_get _ _ = Ok _ |- _ => apply col_get_ok in E
         end.
  subst. unfold col_set. rewrite !rows_loc_set_rows.
  assert (Hl : existsb (label_eqb l) (rows f) = true)
    by (apply existsb_label_In; exact Hin).
  rows_simp Hin Hl. split; reflexivity.
Qed.

Lemma operating_period_nonop (p : PFInputs) (f f' : Frame) (l : Label) (c : Col) :
  operating_period p f = Ok f' -> is_operating l = false ->
  cell f' l c = cell f l c.
Proof.
  unfold operating_period. intros H Hl. break_binds H. subst f'.
  assert (Hx : existsb (label_eqb l) (filter is_operating (rows f)) = false).
  { destruct (existsb _ _) eqn:Ex; [|reflexivity].
    apply existsb_label_In, filter_In in Ex as [_ Ex]. congruence. }
  repeat rewrite cell_loc_set_rows_other by (left; exact Hx).
  reflexivity.
Qed.

(** Name the nested column assignments of a phase, innermost first. *)
Ltac fold_layers :=
  repeat match goal with
         | H : context [loc_set_rows ?g ?ls ?c ?v] |- _ =>
             is_var g;
             let x := fresh "g" in set (x := loc_set_rows g ls c v) in *
         end.

Ltac in_rows Hin :=
  first [ exact Hin
        | match goal with
          | |- In _ (rows ?g) => unfold g; rewrite rows_loc_set_rows; in_rows Hin
          end ].

(** Evaluate named column assignments in front of a cell of a present row. *)
Ltac layer_simp l Hin Hx :=
  repeat first
    [ rewrite (cell_loc_set_rows_same _ _ _ _ l)
        by first [ in_rows Hin | exact Hx ]
    | rewrite (cell_loc_set_rows_other _ _ _ _ _ l) by (right; discriminate)
    | match goal with
      | |- context [cell ?g l _] => is_var g; unfold g
      end
    | progress cbv beta ].

Lemma operating_period_cells (p : PFInputs) (f f' : Frame) (l : Label) :
  operating_period p f = Ok f' -> In l (rows f) -> is_operating l = true ->
  cell f' l FuelCost =
    ((cell f' l FuelUnitCost * cell f l GeneratorFuelInput) / F 1000000)%cell /\
  cell f' l VariableOMCost =
    ((cell f' l GeneratorVariableOMRate * cell f l GeneratorOutput * F 1000)
       / F 1000000)%cell /\
  cell f' l TotalOperatingCosts =
    (cell f' l FuelCost + cell f' l FixedOMCost + cell f' l VariableOMCost)%cell /\
  cell f' l Revenue =
    ((F (lcoe_dollar_per_mwh p) * cell f l LoadServed) / F 1000000)%cell /\
  cell f' l EBITDA = (cell f' l Revenue + cell f' l TotalOperatingCosts)%cell.
Proof.
  unfold operating_period. intros H Hin Hop. break_binds H. fold_layers.
  repeat match goal with
         | E : col_get _ _ = Ok _ |- _ => apply col_get_ok in E
         end.
  subst.
  assert (Hx : existsb (label_eqb l) (filter is_operating (rows f)) = true).
  { apply existsb_label_In, filter_In. split; assumption. }
  layer_simp l Hin Hx. repeat split; reflexivity.
Qed.

Lemma empty_frame_cell (l : Label) (c : Col) : cell empty_frame l c = None.
Proof.
  unfold cell, empty_frame. cbn [data]. generalize years as ys.
  induction ys as [|y ys IH]; cbn; [reflexivity|].
  destruct (label_eqb l (Yr y)); [reflexivity | exact IH].
Qed.

Lemma populate_cell_other (f : Frame) (s : list SimRow) (l : Label) (c : Col) :
  ~ In c [OperatingYear; SolarOutputNet; BESSNetOutput; GeneratorOutput;
          GeneratorFuelInput; LoadServed] ->
  cell (populate f s) l c = cell f l c.
Proof.
  intros Hc. unfold populate. generalize (unique_years s) as ys. intros ys.
  revert f. induction ys as [|y ys IH]; intros f; cbn; [reflexivity|].
  rewrite IH. destruct (first_row y s); [|reflexivity].
  unfold assign_sim_row. skip_sets. reflexivity.
Qed.

Lemma populate_cell_absent (f : Frame) (s : list SimRow) (y : Z) (c : Col) :
  (forall r, In r s -> op_year r <> y) ->
  cell (populate f s) (Yr y) c = cell f (Yr y) c.
Proof.
  intros Hs. unfold populate. generalize (unique_years s) as ys. intros ys.
  revert f. induction ys as [|y' ys IH]; intros f; cbn; [reflexivity|].
  rewrite IH. destruct (first_row y' s) as [r|] eqn:E; [|reflexivity].
  apply find_some in E as [Hr Ey]. apply Z.eqb_eq in Ey.
  specialize (Hs r Hr). rewrite Ey in Hs.
  unfold assign_sim_row.
  repeat rewrite cell_loc_set_other by (left; congruence). reflexivity.
Qed.

Lemma construction_period_later (p : PFInputs) (f f' : Frame) (cpy : Q)
    (y : Z) (c : Col) :
  construction_period p f cpy = Ok f' -> (0 < y)%Z ->
  cell f' (Yr y) c = cell f (Yr y) c.
Proof.
  unfold construction_period. intros H Hy. break_binds H.
  apply loc_set_list_ok in E as [-> _].
  apply loc_set_list_ok in E0 as [-> _].
  apply loc_set_list_ok in H as [-> _].
  assert (Hx : existsb (label_eqb (Yr y))
                 (map Yr (range (- construction_time_years p + 1) 1)) = false).
  { destruct (existsb _ _) eqn:Ex; [|reflexivity].
    apply existsb_label_In, in_map_iff in Ex as (y' & Ey & Hy').
    injection Ey as ->. apply in_range in Hy'. lia. }
  repeat rewrite cell_loc_set_rows_other by (left; exact Hx). reflexivity.
Qed.

(** The frame handed to the debt and tax loop, before that loop. *)
Lemma pre_loop_cells (p : PFInputs) (sim : list SimRow) (rp cpy : Q)
    (f1 f2 : Frame) :
  construction_period p
    (loc_set (loc_set (populate empty_frame sim) (Yr 1) DebtOutstandingYrStart
                (F (total_debt p)))
             (Yr 1) FederalITC
             (F (total_capex p * rp * (investment_tax_credit_pct p / 100))))
    cpy = Ok f1 ->
  operating_period p f1 = Ok f2 ->
  (forall l, cell f2 l DebtOutstandingYrStart =
     if label_eqb (Yr 1) l then F (total_debt p) else None) /\
  (forall l, cell f2 l FederalITC =
     if label_eqb (Yr 1) l
     then F (total_capex p * rp * (investment_tax_credit_pct p / 100)) else None) /\
  (forall l c, In c [InterestExpense; DebtService; PrincipalPayment;
                    DepreciationSchedule; DepreciationMACRS; TaxableIncome;
                    InterestExpenseTax; TaxBenefitLiability;
                    AfterTaxNetEquityCashFlow] ->
     cell f2 l c = None) /\
  (forall y c, (y <= 0)%Z ->
     In c [FuelUnitCost; SolarFixedOMRate; BatteryFixedOMRate;
           GeneratorFixedOMRate; GeneratorVariableOMRate; BOSFixedOMRate;
           SoftOMRate; FixedOMCost; FuelCost; VariableOMCost;
           TotalOperatingCosts; LCOE; Revenue; EBITDA] ->
     cell f2 (Yr y) c = None) /\
  (forall y, (0 < y)%Z -> cell f2 (Yr y) EquityCapex = None) /\
  (forall y c, (forall r, In r sim -> op_year r <> y) ->
     In c [SolarOutputNet; BESSNetOutput; GeneratorOutput;
           GeneratorFuelInput; LoadServed] ->
     cell f1 (Yr y) c = None).
Proof.
  intros H1 H2.
  pose proof (fun y c => construction_period_later p _ _ cpy y c H1) as Hlat.
  pose proof (fun l c => operating_period_nonop p f1 f2 l c H2) as Hnop.
  apply construction_period_ok in H1 as (_ & Hc1 & _).
  apply operating_period_ok in H2 as (_ & Hc2).
  assert (Hsim : forall c, ~ In c [OperatingYear; SolarOutputNet; BESSNetOutput;
                                  GeneratorOutput; GeneratorFuelInput; LoadServed] ->
            ~ In c [CapitalExpenditure; DebtContribution; EquityCapex] ->
            ~ In c [FuelUnitCost; SolarFixedOMRate; BatteryFixedOMRate;
                    GeneratorFixedOMRate; GeneratorVariableOMRate;
                    BOSFixedOMRate; SoftOMRate; FixedOMCost; FuelCost;
                    VariableOMCost; TotalOperatingCosts; LCOE; Revenue;
                    EBITDA] ->
            c <> DebtOutstandingYrStart -> c <> FederalITC ->
            forall l, cell f2 l c = None).
  { intros c Ha Hb Hc Hd He l. rewrite Hc2, Hc1 by assumption.
    rewrite !cell_loc_set_other by (right; congruence).
    rewrite populate_cell_other by exact Ha. apply empty_frame_cell. }
  repeat split.
  - intros l. rewrite Hc2, Hc1 by (cbn; intuition discriminate).
    rewrite cell_loc_set_other by (right; discriminate).
    rewrite cell_loc_set, Col_beq_refl, andb_true_r.
    destruct (label_eqb (Yr 1) l); [reflexivity|].
    rewrite populate_cell_other by (cbn; intuition discriminate).
    apply empty_frame_cell.
  - intros l. rewrite Hc2, Hc1 by (cbn; intuition discriminate).
    rewrite cell_loc_set, Col_beq_refl, andb_true_r.
    destruct (label_eqb (Yr 1) l); [reflexivity|].
    rewrite cell_loc_set_other by (right; discriminate).
    rewrite populate_cell_other by (cbn; intuition discriminate).
    apply empty_frame_cell.
  - intros l c Hc. apply Hsim; cbn in *; intuition congruence.
  - intros y c Hy Hc. rewrite Hnop by (cbn; apply Z.ltb_ge; exact Hy).
    rewrite Hc1 by (cbn in *; intuition congruence).
    rewrite !cell_loc_set_other by (right; cbn in *; intuition congruence).
    rewrite populate_cell_other by (cbn in *; intuition congruence).
    apply empty_frame_cell.
  - intros y Hy. rewrite Hc2 by (cbn; intuition discriminate).
    rewrite Hlat by exact Hy.
    rewrite !cell_loc_set_other by (right; discriminate).
    rewrite populate_cell_other by (cbn; intuition discriminate).
    apply empty_frame_cell.
  - intros y c Hs Hc. rewrite Hc1 by (cbn in *; intuition congruence).
    rewrite !cell_loc_set_other by (right; cbn in *; intuition congruence).
    rewrite populate_cell_absent by exact Hs. apply empty_frame_cell.
Qed.

(** The stages of a run that returns an unrounded table. *)
Lemma pro_forma_cells (p : PFInputs) (sim : list SimRow) (u : Frame) :
  pro_forma_unrounded p sim = Ok u ->
  exists pmt rp cpy f1 f2 f3 f4,
    fixed_debt_payment p = Ok pmt /\
    py_div (solar_capex p + bess_capex p) (total_hard_capex p) = Ok rp /\
    py_div (total_capex p) (inject_Z (construction_time_years p)) = Ok cpy /\
    construction_period p
      (loc_set (loc_set (populate empty_frame sim) (Yr 1) DebtOutstandingYrStart
                  (F (total_debt p)))
               (Yr 1) FederalITC
               (F (total_capex p * rp * (investment_tax_credit_pct p / 100))))
      cpy = Ok f1 /\
    operating_period p f1 = Ok f2 /\
    debt_tax_loop p pmt
      (total_capex p - total_capex p * rp * (investment_tax_credit_pct p / 100) / 2)
      (filter (fun y => 0 <? y)%Z years) f2 = Ok f3 /\
    tax_and_cash_flow p f3 = Ok f4 /\
    (forall l c, l <> NPVrow -> cell u l c = cell f4 l c) /\
    (forall l, In l (rows u) -> l <> NPVrow -> In l (rows f4)) /\
    (forall l, In l (rows f4) -> In l (rows u)).
Proof.
  unfold pro_forma_unrounded. intros H. break_binds H.
  pose proof (stages_no_npv p sim _ _ _ _ _ _ _ _ E2 E3 E4 E5) as N.
  destruct (npv_loop_ok p _ N) as [Hinv _]. subst u.
  exists a, a0, a1, a2, a3, a4, a5. repeat split; try assumption.
  - intros l c Hl. apply cell_inv_dated; assumption.
  - intros l Hl Hn. eapply npv_inv_rows; eassumption.
  - intros l Hl. destruct Hinv as [_ [Ed|[r Ed]]]; unfold rows; rewrite Ed;
      [exact Hl|]. rewrite map_app. apply in_or_app. left. exact Hl.
Qed.

Lemma lift2_None_r (op : Q -> Q -> Q) (x : cellv) : lift2 op x None = None.
Proof. destruct x; reflexivity. Qed.

Lemma operating_years_in (y : Z) :
  In y (filter (fun y => 0 <? y)%Z years) <-> (1 <= y <= 20)%Z.
Proof.
  rewrite filter_In. unfold years. rewrite in_range, Z.ltb_lt. lia.
Qed.

Lemma operating_years_sorted : StronglySorted Z.lt (filter (fun y => 0 <? y)%Z years).
Proof. vm_compute. repeat constructor. Qed.

Lemma populate_rows_incl (f : Frame) (s : list SimRow) (l : Label) :
  In l (rows f) -> In l (rows (populate f s)).
Proof.
  unfold populate. generalize (unique_years s) as ys. intros ys.
  revert f. induction ys as [|y ys IH]; intros f Hl; cbn; [exact Hl|].
  apply IH. destruct (first_row y s); [|exact Hl].
  rewrite rows_assign_sim_row. apply In_add_row. exact Hl.
Qed.

Lemma debt_tax_loop_rows_incl (p : PFInputs) (pmt dep : Q) (ys : list Z)
    (f f' : Frame) (l : Label) :
  debt_tax_loop p pmt dep ys f = Ok f' -> In l (rows f) -> In l (rows f').
Proof.
  revert f. induction ys as [|y ys IH]; intros f H Hl; cbn in H.
  - injection H as <-. exact Hl.
  - break_binds H. apply (IH a H).
    apply debt_tax_year_ok in E as (_ & -> & _).
    destruct (y <? debt_term_years p)%Z; [apply In_add_row|]; exact Hl.
Qed.

(** Before the debt loop every year of [years] is a row. *)
Lemma stage_rows_years (p : PFInputs) (sim : list SimRow) (rp cpy : Q)
    (f1 f2 : Frame) (y : Z) :
  construction_period p
    (loc_set (loc_set (populate empty_frame sim) (Yr 1) DebtOutstandingYrStart
                (F (total_debt p)))
             (Yr 1) FederalITC
             (F (total_capex p * rp * (investment_tax_credit_pct p / 100))))
    cpy = Ok f1 ->
  operating_period p f1 = Ok f2 ->
  (-1 <= y <= 20)%Z -> In (Yr y) (rows f1) /\ In (Yr y) (rows f2).
Proof.
  intros H1 H2 Hy.
  apply construction_period_ok in H1 as (R1 & _).
  apply operating_period_ok in H2 as (R2 & _).
  rewrite R2, R1, !rows_loc_set. split;
    apply In_add_row, In_add_row, populate_rows_incl; rewrite rows_empty_frame;
    apply in_map; unfold years; apply in_range; lia.
Qed.

(** The debt and depreciation cells of the unrounded table. *)
Lemma unrounded_debt_cells (p : PFInputs) (sim : list SimRow) (u : Frame)
    (pmt : Q) :
  pro_forma_unrounded p sim = Ok u ->
  fixed_debt_payment p = Ok pmt ->
  cell u (Yr 1) DebtOutstandingYrStart = F (total_debt p) /\
  (forall y, (2 <= y)%Z -> (debt_term_years p < y)%Z ->
     cell u (Yr y) DebtOutstandingYrStart = None) /\
  forall y, (1 <= y <= 20)%Z ->
  cell u (Yr y) InterestExpense =
    lift1 (interest_expense p) (cell u (Yr y) DebtOutstandingYrStart) /\
  cell u (Yr y) PrincipalPayment =
    lift2 principal_payment (F (-1 * pmt)) (cell u (Yr y) InterestExpense) /\
  ((y < debt_term_years p)%Z ->
   cell u (Yr (y + 1)) DebtOutstandingYrStart =
     lift2 next_debt_outstanding (cell u (Yr y) DebtOutstandingYrStart)
       (cell u (Yr y) PrincipalPayment)) /\
  cell u (Yr y) DepreciationSchedule = F (depreciation_pct p y) /\
  cell u (Yr y) DepreciationMACRS =
    (F (-1) * (F (depreciation_pct p y) / F 100) *
     F (total_capex p -
        total_capex p * ((solar_capex p + bess_capex p) / total_hard_capex p) *
        (investment_tax_credit_pct p / 100) / 2))%cell /\
  cell u (Yr y) TaxableIncome =
    (cell u (Yr y) EBITDA + cell u (Yr y) DepreciationMACRS +
     cell u (Yr y) InterestExpense)%cell /\
  cell u (Yr y) InterestExpenseTax = cell u (Yr y) InterestExpense.
Proof.
  intros Hu Hp.
  apply pro_forma_cells in Hu
    as (pmt' & rp & cpy & f1 & f2 & f3 & f4 & Hpmt & Hrp & _ & H1 & H2 & H3 & H4 & Hu & _ & _).
  rewrite Hp in Hpmt. injection Hpmt as <-.
  apply py_div_ok in Hrp as [-> _].
  pose proof (pre_loop_cells p sim _ cpy f1 f2 H1 H2) as (Hdo & _).
  pose proof (debt_tax_loop_cells p pmt _ _ f2 f3 H3 operating_years_sorted) as Hc3.
  pose proof (debt_tax_loop_do p pmt _ _ f2 f3 H3) as Hdo3.
  apply tax_and_cash_flow_ok in H4 as (_ & _ & Hc4).
  assert (T : forall y c, ~ In c [TaxBenefitLiability; AfterTaxNetEquityCashFlow] ->
                cell u (Yr y) c = cell f3 (Yr y) c).
  { intros y c Hc. rewrite Hu by discriminate. apply Hc4. exact Hc. }
  split; [|split].
  - rewrite T by (cbn; intuition discriminate). rewrite Hdo3, Hdo; [reflexivity|].
    intros y' Hy' _ E. injection E as E.
    apply operating_years_in in Hy'. lia.
  - intros y Hy2 Hy. rewrite T by (cbn; intuition discriminate).
    rewrite Hdo3, Hdo.
    + cbn [label_eqb]. destruct (Z.eqb_spec 1 y); [lia | reflexivity].
    + intros y' _ Hlt E. injection E as E. apply Z.ltb_lt in Hlt. lia.
  - intros y Hy.
    destruct (Hc3 y (proj2 (operating_years_in y) Hy))
      as (C1 & C2 & C3 & C4 & C5 & C6 & C7).
    rewrite !T by (cbn; intuition discriminate).
    repeat split; try assumption.
    intros Hlt. apply C3. apply Z.ltb_lt. exact Hlt.
Qed.

(** The tax and cash-flow cells of the unrounded table. *)
Lemma unrounded_tax_cells (p : PFInputs) (sim : list SimRow) (u : Frame) (l : Label) :
  pro_forma_unrounded p sim = Ok u -> In l (rows u) -> l <> NPVrow ->
  cell u l TaxBenefitLiability =
    (F (-1) * (cell u l TaxableIncome * F (combined_tax_rate_pct p / 100)) +
     F (fillna0 (cell u l FederalITC)))%cell /\
  cell u l AfterTaxNetEquityCashFlow =
    F (fillna0 (cell u l EBITDA) + fillna0 (cell u l DebtService) +
       fillna0 (cell u l TaxBenefitLiability) + fillna0 (cell u l EquityCapex)).
Proof.
  intros Hu Hl Hn.
  apply pro_forma_cells in Hu
    as (pmt & rp & cpy & f1 & f2 & f3 & f4 & _ & _ & _ & _ & _ & _ & H4 & Hu & Hr & _).
  pose proof (tax_and_cash_flow_cells p f3 f4 H4) as Hc.
  apply tax_and_cash_flow_ok in H4 as (R4 & _ & Hc4).
  assert (Hl3 : In l (rows f3)) by (rewrite <- R4; apply Hr; assumption).
  destruct (Hc l Hl3) as [C1 C2].
  rewrite <- !Hc4 in C1 by (cbn; intuition discriminate).
  rewrite <- !Hc4 in C2 by (cbn; intuition discriminate).
  rewrite !Hu by exact Hn. split; assumption.
Qed.

Lemma unrounded_rows_years (p : PFInputs) (sim : list SimRow) (u : Frame) (y : Z) :
  pro_forma_unrounded p sim = Ok u -> (-1 <= y <= 20)%Z -> In (Yr y) (rows u).
Proof.
  intros Hu Hy.
  apply pro_forma_cells in Hu
    as (pmt & rp & cpy & f1 & f2 & f3 & f4 & _ & _ & _ & H1 & H2 & H3 & H4 & _ & _ & Hr).
  apply Hr. apply tax_and_cash_flow_ok in H4 as (-> & _).
  eapply debt_tax_loop_rows_incl; [exact H3|].
  exact (proj2 (stage_rows_years p sim rp cpy f1 f2 y H1 H2 Hy)).
Qed.

Lemma opening_balances_nth (p : PFInputs) (pmt : Q) (k : nat) :
  forall b n, (S k < n)%nat ->
  nth (S k) (opening_balances p pmt b n) 0 =
    debt_step p pmt (nth k (opening_balances p pmt b n) 0).
Proof.
  induction k as [|k IH]; intros b n Hn.
  - destruct n as [|[|n]]; [lia | lia | reflexivity].
  - destruct n as [|n]; [lia|]. cbn [opening_balances].
    change (nth (S (S k)) (b :: opening_balances p pmt (debt_step p pmt b) n) 0)
      with (nth (S k) (opening_balances p pmt (debt_step p pmt b) n) 0).
    rewrite IH by lia. reflexivity.
Qed.

(** ** Further properties of the pro forma table *)

(** The tax benefit and the after-tax cash flow: in every dated row of a
    returned table, before the final rounding, Tax Benefit (Liability) is
    [-(Taxable Income * tax rate / 100) + Federal ITC] with a missing ITC
    counted as 0, and After-Tax Net Equity Cash Flow is the sum of EBITDA,
    Debt Service, Tax Benefit (Liability) and Equity Capex, each NaN counted
    as 0. *)
Theorem cash_flow_identity (sim : list SimRow) (p : PFInputs) (t : Frame) (l : Label) :
  calculate_pro_forma sim p = Ok t -> In l (rows t) -> l <> NPVrow ->
  exists u, t = round_frame u /\
    cell u l TaxBenefitLiability =
      (F (-1) * (cell u l TaxableIncome * F (combined_tax_rate_pct p / 100)) +
       F (fillna0 (cell u l FederalITC)))%cell /\
    cell u l AfterTaxNetEquityCashFlow =
      F (fillna0 (cell u l EBITDA) + fillna0 (cell u l DebtService) +
         fillna0 (cell u l TaxBenefitLiability) + fillna0 (cell u l EquityCapex)).
Proof.
  intros Ht Hl Hn. apply calculate_pro_forma_ok in Ht as (u & Hu & ->).
  exists u. split; [reflexivity|].
  rewrite rows_round_frame in Hl.
  exact (unrounded_tax_cells p sim u l Hu Hl Hn).
Qed.

(** The debt schedule: in a returned table, before the final rounding, Debt
    Outstanding at the start of year 1 is the total debt; in each year
    1..20 the Interest Expense is [-balance * rate], the Principal Payment
    is [-pmt] minus that interest, and while the year is before the end of
    the debt term the next year's opening balance is the balance plus the
    principal payment. *)
Theorem debt_schedule (sim : list SimRow) (p : PFInputs) (t : Frame) (pmt : Q) (y : Z) :
  calculate_pro_forma sim p = Ok t ->
  fixed_debt_payment p = Ok pmt ->
  (1 <= y <= 20)%Z ->
  exists u, t = round_frame u /\
    cell u (Yr 1) DebtOutstandingYrStart = F (total_debt p) /\
    cell u (Yr y) InterestExpense =
      lift1 (interest_expense p) (cell u (Yr y) DebtOutstandingYrStart) /\
    cell u (Yr y) PrincipalPayment =
      lift2 principal_payment (F (-1 * pmt)) (cell u (Yr y) InterestExpense) /\
    ((y < debt_term_years p)%Z ->
     cell u (Yr (y + 1)) DebtOutstandingYrStart =
       lift2 next_debt_outstanding (cell u (Yr y) DebtOutstandingYrStart)
         (cell u (Yr y) PrincipalPayment)).
Proof.
  intros Ht Hp Hy. apply calculate_pro_forma_ok in Ht as (u & Hu & ->).
  destruct (unrounded_debt_cells p sim u pmt Hu Hp) as (D1 & _ & D).
  destruct (D y Hy) as (C1 & C2 & C3 & _).
  exists u. repeat split; assumption.
Qed.

(** The opening balances of the table follow the amortization: in a
    returned table, before the final rounding, for every year y with
    1 <= y <= debt_term_years and y <= 20 the Debt Outstanding at the start
    of year y is a number equal to the y-th opening balance of the
    declining-balance recurrence from the total debt with the fixed
    payment. *)
Theorem debt_outstanding_amortizes (sim : list SimRow) (p : PFInputs) (t : Frame)
    (pmt : Q) (y : Z) :
  calculate_pro_forma sim p = Ok t ->
  fixed_debt_payment p = Ok pmt ->
  (1 <= y)%Z -> (y <= debt_term_years p)%Z -> (y <= 20)%Z ->
  exists u b, t = round_frame u /\
    cell u (Yr y) DebtOutstandingYrStart = Some b /\
    b == nth (Z.to_nat (y - 1))
           (opening_balances p pmt (total_debt p) (Z.to_nat (debt_term_years p))) 0.
Proof.
  intros Ht Hp Hy1 Hyn Hy20. apply calculate_pro_forma_ok in Ht as (u & Hu & ->).
  destruct (unrounded_debt_cells p sim u pmt Hu Hp) as (D1 & _ & D).
  set (n := Z.to_nat (debt_term_years p)).
  assert (K : forall k, (k < n)%nat -> (k < 20)%nat ->
            exists b, cell u (Yr (Z.of_nat k + 1)) DebtOutstandingYrStart = Some b /\
                      b == nth k (opening_balances p pmt (total_debt p) n) 0).
  { induction k as [|k IH]; intros Hk H20.
    - exists (total_debt p). split; [exact D1|].
      destruct n as [|n]; [lia | reflexivity].
    - destruct IH as (b & Hb & Eb); [lia | lia |].
      destruct (D (Z.of_nat k + 1)%Z ltac:(lia)) as (C1 & C2 & C3 & _).
      rewrite Nat2Z.inj_succ, <- Z.add_1_r.
      rewrite C3 by lia. rewrite C2, C1, Hb. cbn [lift2 lift1 option_map F].
      eexists. split; [reflexivity|].
      rewrite opening_balances_nth by exact Hk.
      rewrite (debt_step_eq p pmt (nth k _ _)), <- Eb.
      unfold next_debt_outstanding, principal_payment.
      setoid_rewrite Qred_correct. setoid_rewrite Qred_correct.
      setoid_rewrite Qred_correct.
      unfold interest_expense. ring. }
  destruct (K (Z.to_nat (y - 1)) ltac:(lia) ltac:(lia)) as (b & Hb & Eb).
  rewrite Z2Nat.id in Hb by lia.
  replace (y - 1 + 1)%Z with y in Hb by lia.
  exists u, b. repeat split; assumption.
Qed.

(** Past the debt term the table has no balance and no tax: in a returned
    table, for every year y with 2 <= y <= 20 after the end of the debt
    term, Debt Outstanding, Interest Expense, Principal Payment, Taxable
    Income and Tax Benefit (Liability) are all NaN. *)
Theorem debt_cells_after_term (sim : list SimRow) (p : PFInputs) (t : Frame) (y : Z) :
  calculate_pro_forma sim p = Ok t ->
  (debt_term_years p < y)%Z -> (2 <= y <= 20)%Z ->
  cell t (Yr y) DebtOutstandingYrStart = None /\
  cell t (Yr y) InterestExpense = None /\
  cell t (Yr y) PrincipalPayment = None /\
  cell t (Yr y) TaxableIncome = None /\
  cell t (Yr y) TaxBenefitLiability = None.
Proof.
  intros Ht Hdt Hy. apply calculate_pro_forma_ok in Ht as (u & Hu & ->).
  pose proof Hu as Hu'.
  apply pro_forma_unrounded_ok in Hu' as (pmt & _ & _ & _ & _ & _ & _ & _ & Hp & _).
  destruct (unrounded_debt_cells p sim u pmt Hu Hp) as (_ & Dn & D).
  destruct (D y ltac:(lia)) as (C1 & C2 & _ & _ & _ & C6 & _).
  destruct (unrounded_tax_cells p sim u (Yr y) Hu
              (unrounded_rows_years p sim u y Hu ltac:(lia)) ltac:(discriminate))
    as [T1 _].
  assert (E0 : cell u (Yr y) DebtOutstandingYrStart = None) by (apply Dn; lia).
  assert (E1 : cell u (Yr y) InterestExpense = None) by (rewrite C1, E0; reflexivity).
  assert (E3 : cell u (Yr y) TaxableIncome = None)
    by (rewrite C6, E1; apply lift2_None_r).
  rewrite !cell_round_frame, T1, E3, E0, E1, C2, E1.
  repeat split; reflexivity.
Qed.

(** The cells the debt and tax loop and the tax step leave alone. *)
Lemma unrounded_stages (p : PFInputs) (sim : list SimRow) (u : Frame) :
  pro_forma_unrounded p sim = Ok u ->
  exists pmt rp cpy f1 f2,
    fixed_debt_payment p = Ok pmt /\
    construction_period p
      (loc_set (loc_set (populate empty_frame sim) (Yr 1) DebtOutstandingYrStart
                  (F (total_debt p)))
               (Yr 1) FederalITC
               (F (total_capex p * rp * (investment_tax_credit_pct p / 100))))
      cpy = Ok f1 /\
    operating_period p f1 = Ok f2 /\
    (forall l c, l <> NPVrow ->
       ~ In c [InterestExpense; DebtService; PrincipalPayment;
               DebtOutstandingYrStart; DepreciationSchedule; DepreciationMACRS;
               TaxableIncome; InterestExpenseTax; TaxBenefitLiability;
               AfterTaxNetEquityCashFlow] ->
       cell u l c = cell f2 l c) /\
    (forall y c, (y <= 0)%Z -> c <> DebtOutstandingYrStart ->
       ~ In c [TaxBenefitLiability; AfterTaxNetEquityCashFlow] ->
       cell u (Yr y) c = cell f2 (Yr y) c) /\
    (forall y, (1 <= y <= 20)%Z -> cell u (Yr y) DebtService = F (-1 * pmt)).
Proof.
  intros Hu.
  apply pro_forma_cells in Hu
    as (pmt & rp & cpy & f1 & f2 & f3 & f4 & Hp & _ & _ & H1 & H2 & H3 & H4 & Hu & _ & _).
  apply debt_tax_loop_ok in H3 as (_ & _ & Lc & Lo & Lds).
  apply tax_and_cash_flow_ok in H4 as (_ & _ & Hc4).
  exists pmt, rp, cpy, f1, f2. repeat split; try assumption.
  - intros l c Hl Hc. rewrite Hu, Hc4, Lc by (exact Hl || (cbn in *; intuition congruence)).
    reflexivity.
  - intros y c Hy Hc Ht. rewrite Hu, Hc4 by (discriminate || exact Ht).
    apply Lo; [|exact Hc]. intros y' Hy' E. injection E as <-.
    apply operating_years_in in Hy'. lia.
  - intros y Hy. rewrite Hu, Hc4 by (discriminate || (cbn; intuition discriminate)).
    apply Lds, operating_years_in, Hy.
Qed.

Lemma sum_Q_ext (g h : Z -> Q) (ys : list Z) :
  (forall y, In y ys -> g y == h y) -> sum_Q (map g ys) == sum_Q (map h ys).
Proof.
  induction ys as [|y ys IH]; intros H; [reflexivity|].
  cbn [map sum_Q fold_right]. fold (sum_Q (map g ys)) (sum_Q (map h ys)).
  rewrite H by (left; reflexivity). rewrite IH; [reflexivity|].
  intros y' Hy'. apply H. right. exact Hy'.
Qed.

Lemma sum_Q_scale (c : Q) (g : Z -> Q) (ys : list Z) :
  sum_Q (map (fun y => c * g y) ys) == c * sum_Q (map g ys).
Proof.
  induction ys as [|y ys IH]; [cbn; ring|].
  cbn [map sum_Q fold_right]. fold (sum_Q (map (fun y => c * g y) ys)).
  fold (sum_Q (map g ys)). rewrite IH. ring.
Qed.

Lemma depreciation_pct_nth (p : PFInputs) (k : nat) :
  depreciation_pct p (1 + Z.of_nat k) = nth k (depreciation_schedule p) 0.
Proof.
  unfold depreciation_pct.
  destruct (Z.leb_spec (1 + Z.of_nat k) (Z.of_nat (length (depreciation_schedule p)))).
  - f_equal. lia.
  - rewrite nth_overflow by lia. reflexivity.
Qed.

Lemma sum_Q_nth (xs : list Q) (m : nat) :
  (length xs <= m)%nat ->
  sum_Q (map (fun k => nth k xs 0) (seq 0 m)) == sum_Q xs.
Proof.
  revert m. induction xs as [|x xs IH]; intros m Hm.
  - change (sum_Q []) with 0. generalize 0%nat as s.
    induction m as [|m IHm]; intros s; [reflexivity|].
    cbn [seq map sum_Q fold_right].
    fold (sum_Q (map (fun k => nth k (@nil Q) 0) (seq (S s) m))).
    rewrite IHm by (cbn; lia). destruct s; cbn; ring.
  - destruct m as [|m]; [cbn in Hm; lia|].
    cbn [seq map sum_Q fold_right nth].
    rewrite <- seq_shift, map_map.
    fold (sum_Q (map (fun k => nth (S k) (x :: xs) 0) (seq 0 m))).
    fold (sum_Q xs).
    change (fun k => nth (S k) (x :: xs) 0) with (fun k => nth k xs 0).
    rewrite IH by (cbn in Hm; lia). reflexivity.
Qed.

(** Depreciation and taxable income: in a returned table, before the final
    rounding, each year y in 1..20 has Depreciation Schedule = the y-th
    entry of the schedule (0 past its end), MACRS Depreciation =
    [-(schedule% / 100) * depreciable amount] with the depreciable amount
    [total CAPEX - ITC / 2], Taxable Income = EBITDA + MACRS Depreciation +
    Interest Expense, and Interest Expense (tax) = Interest Expense. *)
Theorem depreciation_and_taxable_income (sim : list SimRow) (p : PFInputs)
    (t : Frame) (y : Z) :
  calculate_pro_forma sim p = Ok t -> (1 <= y <= 20)%Z ->
  exists u, t = round_frame u /\
    cell u (Yr y) DepreciationSchedule = F (depreciation_pct p y) /\
    cell u (Yr y) DepreciationMACRS =
      (F (-1) * (F (depreciation_pct p y) / F 100) *
       F (total_capex p -
          total_capex p * ((solar_capex p + bess_capex p) / total_hard_capex p) *
          (investment_tax_credit_pct p / 100) / 2))%cell /\
    cell u (Yr y) TaxableIncome =
      (cell u (Yr y) EBITDA + cell u (Yr y) DepreciationMACRS +
       cell u (Yr y) InterestExpense)%cell /\
    cell u (Yr y) InterestExpenseTax = cell u (Yr y) InterestExpense.
Proof.
  intros Ht Hy. apply calculate_pro_forma_ok in Ht as (u & Hu & ->).
  pose proof Hu as Hu'.
  apply pro_forma_unrounded_ok in Hu' as (pmt & _ & _ & _ & _ & _ & _ & _ & Hp & _).
  destruct (unrounded_debt_cells p sim u pmt Hu Hp) as (_ & _ & D).
  destruct (D y Hy) as (_ & _ & _ & C4 & C5 & C6 & C7).
  exists u. repeat split; assumption.
Qed.

(** Total depreciation: in a returned table whose depreciation schedule has
    at most 20 entries, the MACRS Depreciation of years 1..20 (before the
    final rounding) adds up to [-(sum of the schedule) / 100] times the
    depreciable amount [total CAPEX - ITC / 2]; a schedule summing to 100
    writes off exactly the depreciable amount. *)
Theorem depreciation_total (sim : list SimRow) (p : PFInputs) (t : Frame) :
  calculate_pro_forma sim p = Ok t ->
  (length (depreciation_schedule p) <= 20)%nat ->
  exists u, t = round_frame u /\
    sum_Q (map (fun y => fillna0 (cell u (Yr y) DepreciationMACRS)) (range 1 21)) ==
    - (sum_Q (depreciation_schedule p) / 100) *
      (total_capex p -
       total_capex p * ((solar_capex p + bess_capex p) / total_hard_capex p) *
       (investment_tax_credit_pct p / 100) / 2).
Proof.
  intros Ht Hlen. apply calculate_pro_forma_ok in Ht as (u & Hu & ->).
  pose proof Hu as Hu'.
  apply pro_forma_unrounded_ok in Hu' as (pmt & _ & _ & _ & _ & _ & _ & _ & Hp & _).
  destruct (unrounded_debt_cells p sim u pmt Hu Hp) as (_ & _ & D).
  exists u. split; [reflexivity|].
  set (dep := total_capex p -
       total_capex p * ((solar_capex p + bess_capex p) / total_hard_capex p) *
       (investment_tax_credit_pct p / 100) / 2).
  rewrite (sum_Q_ext _ (fun y => - dep / 100 * depreciation_pct p y)).
  - rewrite sum_Q_scale. unfold range. rewrite map_map.
    rewrite (map_ext _ (fun k => nth k (depreciation_schedule p) 0))
      by (intros k; apply depreciation_pct_nth).
    change (Z.to_nat (21 - 1)) with 20%nat.
    rewrite sum_Q_nth by exact Hlen. clearbody dep. field.
  - intros y Hy. apply in_range in Hy.
    destruct (D y ltac:(lia)) as (_ & _ & _ & _ & C5 & _).
    rewrite C5. cbn [cmul cdiv lift2 F fillna0].
    setoid_rewrite Qred_correct. setoid_rewrite Qred_correct.
    setoid_rewrite Qred_correct. fold dep. clearbody dep. field.
Qed.

(** The years before operation: in every row y <= 0 of a returned table,
    Revenue, Total Operating Costs, EBITDA, Debt Service, Interest Expense,
    Taxable Income and Tax Benefit (Liability) are NaN, and (before the final
    rounding) the After-Tax Net Equity Cash Flow is the Equity Capex, NaN
    counted as 0. *)
Theorem pre_operation_years (sim : list SimRow) (p : PFInputs) (t : Frame) (y : Z) :
  calculate_pro_forma sim p = Ok t -> In (Yr y) (rows t) -> (y <= 0)%Z ->
  cell t (Yr y) Revenue = None /\
  cell t (Yr y) TotalOperatingCosts = None /\
  cell t (Yr y) EBITDA = None /\
  cell t (Yr y) DebtService = None /\
  cell t (Yr y) InterestExpense = None /\
  cell t (Yr y) TaxableIncome = None /\
  cell t (Yr y) TaxBenefitLiability = None /\
  exists u a, t = round_frame u /\
    cell u (Yr y) AfterTaxNetEquityCashFlow = Some a /\
    a == fillna0 (cell u (Yr y) EquityCapex).
Proof.
  intros Ht Hl Hy. apply calculate_pro_forma_ok in Ht as (u & Hu & ->).
  rewrite rows_round_frame in Hl.
  destruct (unrounded_tax_cells p sim u (Yr y) Hu Hl ltac:(discriminate)) as [T1 T2].
  apply unrounded_stages in Hu
    as (pmt & rp & cpy & f1 & f2 & _ & H1 & H2 & _ & S2 & _).
  destruct (pre_loop_cells p sim rp cpy f1 f2 H1 H2) as (_ & _ & P3 & P4 & _).
  assert (N : forall c, In c [Revenue; TotalOperatingCosts; EBITDA; DebtService;
                             InterestExpense; TaxableIncome] ->
                cell u (Yr y) c = None).
  { intros c Hc. rewrite S2 by (exact Hy || (cbn in *; intuition congruence)).
    cbn in Hc. intuition subst;
      first [ apply P4; [exact Hy | cbn; tauto]
            | apply P3; cbn; tauto ]. }
  assert (E3 : cell u (Yr y) TaxBenefitLiability = None)
    by (rewrite T1, N by (cbn; tauto); reflexivity).
  rewrite !cell_round_frame, E3, !N by (cbn; tauto).
  repeat split; try reflexivity.
  exists u, (fillna0 None + fillna0 None + fillna0 None +
             fillna0 (cell u (Yr y) EquityCapex)).
  split; [reflexivity|]. split.
  - rewrite T2, E3, !N by (cbn; tauto). reflexivity.
  - cbn [fillna0]. ring.
Qed.

(** A year missing from the simulation data: if no simulation row has
    Operating Year y (1 <= y <= 20), the returned table has NaN Revenue, Fuel
    Cost, Variable O&M Cost, Total Operating Costs, EBITDA, Taxable Income and
    Tax Benefit (Liability) in year y, and (before the final rounding) its
    After-Tax Net Equity Cash Flow is the debt service [-pmt] alone. *)
Theorem missing_simulation_year (sim : list SimRow) (p : PFInputs) (t : Frame)
    (pmt : Q) (y : Z) :
  calculate_pro_forma sim p = Ok t ->
  fixed_debt_payment p = Ok pmt ->
  (1 <= y <= 20)%Z ->
  (forall r, In r sim -> op_year r <> y) ->
  cell t (Yr y) Revenue = None /\
  cell t (Yr y) FuelCost = None /\
  cell t (Yr y) VariableOMCost = None /\
  cell t (Yr y) TotalOperatingCosts = None /\
  cell t (Yr y) EBITDA = None /\
  cell t (Yr y) TaxableIncome = None /\
  cell t (Yr y) TaxBenefitLiability = None /\
  exists u a, t = round_frame u /\
    cell u (Yr y) AfterTaxNetEquityCashFlow = Some a /\ a == - pmt.
Proof.
  intros Ht Hp Hy Hs. apply calculate_pro_forma_ok in Ht as (u & Hu & ->).
  destruct (unrounded_tax_cells p sim u (Yr y) Hu
              (unrounded_rows_years p sim u y Hu ltac:(lia)) ltac:(discriminate))
    as [T1 T2].
  destruct (unrounded_debt_cells p sim u pmt Hu Hp) as (_ & _ & D).
  destruct (D y Hy) as (_ & _ & _ & _ & _ & C6 & _).
  apply unrounded_stages in Hu
    as (pmt' & rp & cpy & f1 & f2 & Hp' & H1 & H2 & S1 & _ & S3).
  rewrite Hp in Hp'. injection Hp' as <-.
  destruct (stage_rows_years p sim rp cpy f1 f2 y H1 H2 ltac:(lia)) as [R1 _].
  destruct (pre_loop_cells p sim rp cpy f1 f2 H1 H2) as (_ & _ & _ & _ & P5 & P6).
  destruct (operating_period_cells p f1 f2 (Yr y) H2 R1 ltac:(cbn; lia))
    as (O1 & O2 & O3 & O4 & O5).
  rewrite (P6 y GeneratorFuelInput Hs) in O1 by (cbn; tauto).
  rewrite (P6 y GeneratorOutput Hs) in O2 by (cbn; tauto).
  rewrite (P6 y LoadServed Hs) in O4 by (cbn; tauto).
  unfold cmul, cdiv, cadd in O1, O2, O3, O4, O5.
  rewrite lift2_None_r in O1. rewrite lift2_None_r in O2.
  rewrite lift2_None_r in O4. cbn [lift2] in O1, O2, O4.
  rewrite O1, O2, lift2_None_r in O3.
  rewrite O4, O3 in O5. cbn [lift2] in O5.
  assert (U : forall c, In c [Revenue; FuelCost; VariableOMCost;
                             TotalOperatingCosts; EBITDA; EquityCapex] ->
                cell u (Yr y) c = cell f2 (Yr y) c).
  { intros c Hc. apply S1; [discriminate|]. cbn in *. intuition congruence. }
  assert (E5 : cell u (Yr y) EBITDA = None) by (rewrite U by (cbn; tauto); exact O5).
  assert (E6 : cell u (Yr y) TaxableIncome = None) by (rewrite C6, E5; reflexivity).
  assert (E7 : cell u (Yr y) TaxBenefitLiability = None)
    by (rewrite T1, E6; reflexivity).
  rewrite !cell_round_frame, E6, E7, E5, !U by (cbn; tauto).
  rewrite O1, O2, O3, O4. repeat split; try reflexivity.
  exists u, (0 + -1 * pmt + 0 + 0). split; [reflexivity|]. split.
  - rewrite T2, E5, E7, S3 by exact Hy.
    rewrite U, P5 by (cbn; tauto || lia). reflexivity.
  - ring.
Qed.

Lemma col_in_add_col (x c : Col) (cs : list Col) :
  col_in x (add_col cs c) = col_in x cs || Col_beq x c.
Proof.
  unfold add_col. destruct (col_in c cs) eqn:E.
  - destruct (Col_beq x c) eqn:Ex; [|apply eq_sym, orb_false_r].
    apply Col_beq_eq in Ex. subst. rewrite E. reflexivity.
  - unfold col_in. rewrite existsb_app. cbn [existsb]. rewrite orb_false_r.
    reflexivity.
Qed.

Lemma construction_period_cols (p : PFInputs) (f f' : Frame) (cpy : Q) :
  construction_period p f cpy = Ok f' ->
  cols f' = add_col (add_col (add_col (cols f) CapitalExpenditure)
                       DebtContribution) EquityCapex.
Proof.
  unfold construction_period. intros H. break_binds H.
  apply loc_set_list_ok in E as [-> _].
  apply loc_set_list_ok in E0 as [-> _].
  apply loc_set_list_ok in H as [-> _].
  reflexivity.
Qed.

(** The operating period reads the Generator Fuel Input column. *)
Lemma operating_period_fuel_input (p : PFInputs) (f f' : Frame) :
  operating_period p f = Ok f' -> col_in GeneratorFuelInput (cols f) = true.
Proof.
  unfold operating_period. intros H. break_binds H.
  match goal with
  | E : col_get _ GeneratorFuelInput = Ok _ |- _ =>
      unfold col_get, has_col in E;
      destruct (col_in GeneratorFuelInput _) eqn:Hc in E; [|discriminate E]
  end.
  cbn [cols loc_set_rows] in Hc. rewrite !col_in_add_col in Hc.
  cbn [Col_beq] in Hc. rewrite !orb_false_r in Hc. exact Hc.
Qed.

(** Empty simulation data: [calculate_pro_forma] called with no simulation
    rows never returns a table; it raises (at the latest a [KeyError] on the
    missing Generator Fuel Input column). *)
Theorem empty_simulation_raises (p : PFInputs) :
  exists e, calculate_pro_forma [] p = Err e.
Proof.
  destruct (calculate_pro_forma [] p) as [t|e] eqn:Ht; [|exists e; reflexivity].
  exfalso. apply calculate_pro_forma_ok in Ht as (u & Hu & _).
  apply pro_forma_cells in Hu
    as (pmt & rp & cpy & f1 & f2 & f3 & f4 & _ & _ & _ & H1 & H2 & _).
  apply operating_period_fuel_input in H2.
  rewrite (construction_period_cols p _ f1 cpy H1) in H2.
  rewrite !col_in_add_col in H2. cbn [Col_beq orb] in H2.
  vm_compute in H2. discriminate H2.
Qed.

Lemma cash_flow_identity_witness :
  match calculate_pro_forma Scenario.sim20 Scenario.base with
  | Ok t =>
      In (Yr 5) (rows t) /\
      exists u, t = round_frame u /\
        cell u (Yr 5) TaxBenefitLiability =
          (F (-1) * (cell u (Yr 5) TaxableIncome *
                     F (combined_tax_rate_pct Scenario.base / 100)) +
           F (fillna0 (cell u (Yr 5) FederalITC)))%cell /\
        cell u (Yr 5) AfterTaxNetEquityCashFlow =
          F (fillna0 (cell u (Yr 5) EBITDA) + fillna0 (cell u (Yr 5) DebtService) +
             fillna0 (cell u (Yr 5) TaxBenefitLiability) +
             fillna0 (cell u (Yr 5) EquityCapex))
  | Err _ => False
  end.
Proof.
  assert (Hm : match calculate_pro_forma Scenario.sim20 Scenario.base with
               | Ok t => existsb (label_eqb (Yr 5)) (rows t) = true
               | Err _ => False
               end) by (vm_compute; reflexivity).
  destruct (calculate_pro_forma Scenario.sim20 Scenario.base) as [t|e] eqn:E;
    [|not_err E].
  cbv beta iota in Hm. apply existsb_label_In in Hm.
  split; [exact Hm|].
  apply (cash_flow_identity Scenario.sim20 Scenario.base t (Yr 5) E Hm).
  discriminate.
Defined.

Lemma debt_schedule_witness :
  match calculate_pro_forma Scenario.sim20 Scenario.base,
        fixed_debt_payment Scenario.base with
  | Ok t, Ok pmt =>
      exists u, t = round_frame u /\
        cell u (Yr 1) DebtOutstandingYrStart = F (total_debt Scenario.base) /\
        cell u (Yr 3) InterestExpense =
          lift1 (interest_expense Scenario.base)
            (cell u (Yr 3) DebtOutstandingYrStart) /\
        cell u (Yr 3) PrincipalPayment =
          lift2 principal_payment (F (-1 * pmt)) (cell u (Yr 3) InterestExpense) /\
        ((3 < debt_term_years Scenario.base)%Z ->
         cell u (Yr (3 + 1)) DebtOutstandingYrStart =
           lift2 next_debt_outstanding (cell u (Yr 3) DebtOutstandingYrStart)
             (cell u (Yr 3) PrincipalPayment))
  | _, _ => False
  end.
Proof.
  destruct (calculate_pro_forma Scenario.sim20 Scenario.base) as [t|e] eqn:E1;
    [|not_err E1].
  destruct (fixed_debt_payment Scenario.base) as [pmt|e] eqn:E2; [|not_err E2].
  apply (debt_schedule Scenario.sim20 Scenario.base t pmt 3 E1 E2). lia.
Defined.

Lemma debt_outstanding_amortizes_witness :
  (2 <= debt_term_years Scenario.base)%Z /\
  match calculate_pro_forma Scenario.sim20 Scenario.base,
        fixed_debt_payment Scenario.base with
  | Ok t, Ok pmt =>
      exists u b, t = round_frame u /\
        cell u (Yr 2) DebtOutstandingYrStart = Some b /\
        b == nth (Z.to_nat (2 - 1))
               (opening_balances Scenario.base pmt (total_debt Scenario.base)
                  (Z.to_nat (debt_term_years Scenario.base))) 0
  | _, _ => False
  end.
Proof.
  assert (Hn : (2 <= debt_term_years Scenario.base)%Z) by (cbn; lia).
  split; [exact Hn|].
  destruct (calculate_pro_forma Scenario.sim20 Scenario.base) as [t|e] eqn:E1;
    [|not_err E1].
  destruct (fixed_debt_payment Scenario.base) as [pmt|e] eqn:E2; [|not_err E2].
  apply (debt_outstanding_amortizes Scenario.sim20 Scenario.base t pmt 2 E1 E2);
    lia.
Defined.

Lemma debt_cells_after_term_witness :
  (debt_term_years (Scenario.with_debt_term 10 Scenario.base) < 15)%Z /\
  match calculate_pro_forma Scenario.sim20 (Scenario.with_debt_term 10 Scenario.base) with
  | Ok t =>
      cell t (Yr 15) DebtOutstandingYrStart = None /\
      cell t (Yr 15) InterestExpense = None /\
      cell t (Yr 15) PrincipalPayment = None /\
      cell t (Yr 15) TaxableIncome = None /\
      cell t (Yr 15) TaxBenefitLiability = None
  | Err _ => False
  end.
Proof.
  assert (Hn : (debt_term_years (Scenario.with_debt_term 10 Scenario.base) < 15)%Z)
    by (cbn; lia).
  split; [exact Hn|].
  destruct (calculate_pro_forma Scenario.sim20 (Scenario.with_debt_term 10 Scenario.base))
    as [t|e] eqn:E; [|not_err E].
  apply (debt_cells_after_term _ _ t 15 E Hn). lia.
Defined.

Lemma depreciation_and_taxable_income_witness :
  match calculate_pro_forma Scenario.sim20 Scenario.base with
  | Ok t =>
      exists u, t = round_frame u /\
        cell u (Yr 1) DepreciationSchedule = F (depreciation_pct Scenario.base 1) /\
        cell u (Yr 1) DepreciationMACRS =
          (F (-1) * (F (depreciation_pct Scenario.base 1) / F 100) *
           F (total_capex Scenario.base -
              total_capex Scenario.base *
              ((solar_capex Scenario.base + bess_capex Scenario.base) /
               total_hard_capex Scenario.base) *
              (investment_tax_credit_pct Scenario.base / 100) / 2))%cell /\
        cell u (Yr 1) TaxableIncome =
          (cell u (Yr 1) EBITDA + cell u (Yr 1) DepreciationMACRS +
           cell u (Yr 1) InterestExpense)%cell /\
        cell u (Yr 1) InterestExpenseTax = cell u (Yr 1) InterestExpense
  | Err _ => False
  end.
Proof.
  destruct (calculate_pro_forma Scenario.sim20 Scenario.base) as [t|e] eqn:E;
    [|not_err E].
  apply (depreciation_and_taxable_income Scenario.sim20 Scenario.base t 1 E). lia.
Defined.

Lemma depreciation_total_witness :
  (length (depreciation_schedule Scenario.base) <= 20)%nat /\
  match calculate_pro_forma Scenario.sim20 Scenario.base with
  | Ok t =>
      exists u, t = round_frame u /\
        sum_Q (map (fun y => fillna0 (cell u (Yr y) DepreciationMACRS)) (range 1 21)) ==
        - (sum_Q (depreciation_schedule Scenario.base) / 100) *
          (total_capex Scenario.base -
           total_capex Scenario.base *
           ((solar_capex Scenario.base + bess_capex Scenario.base) /
            total_hard_capex Scenario.base) *
           (investment_tax_credit_pct Scenario.base / 100) / 2)
  | Err _ => False
  end.
Proof.
  assert (Hl : (length (depreciation_schedule Scenario.base) <= 20)%nat)
    by (cbn; lia).
  split; [exact Hl|].
  destruct (calculate_pro_forma Scenario.sim20 Scenario.base) as [t|e] eqn:E;
    [|not_err E].
  apply (depreciation_total Scenario.sim20 Scenario.base t E Hl).
Defined.

Lemma pre_operation_years_witness :
  match calculate_pro_forma Scenario.sim20 Scenario.base with
  | Ok t =>
      In (Yr 0) (rows t) /\
      cell t (Yr 0) Revenue = None /\
      cell t (Yr 0) TotalOperatingCosts = None /\
      cell t (Yr 0) EBITDA = None /\
      cell t (Yr 0) DebtService = None /\
      cell t (Yr 0) InterestExpense = None /\
      cell t (Yr 0) TaxableIncome = None /\
      cell t (Yr 0) TaxBenefitLiability = None /\
      exists u a, t = round_frame u /\
        cell u (Yr 0) AfterTaxNetEquityCashFlow = Some a /\
        a == fillna0 (cell u (Yr 0) EquityCapex)
  | Err _ => False
  end.
Proof.
  assert (Hm : match calculate_pro_forma Scenario.sim20 Scenario.base with
               | Ok t => existsb (label_eqb (Yr 0)) (rows t) = true
               | Err _ => False
               end) by (vm_compute; reflexivity).
  destruct (calculate_pro_forma Scenario.sim20 Scenario.base) as [t|e] eqn:E;
    [|not_err E].
  cbv beta iota in Hm. apply existsb_label_In in Hm.
  split; [exact Hm|].
  apply (pre_operation_years Scenario.sim20 Scenario.base t 0 E Hm). lia.
Defined.

Lemma missing_simulation_year_witness :
  (forall r, In r Scenario.sim_gap -> op_year r <> 7%Z) /\
  match calculate_pro_forma Scenario.sim_gap Scenario.base,
        fixed_debt_payment Scenario.base with
  | Ok t, Ok pmt =>
      cell t (Yr 7) Revenue = None /\
      cell t (Yr 7) FuelCost = None /\
      cell t (Yr 7) VariableOMCost = None /\
      cell t (Yr 7) TotalOperatingCosts = None /\
      cell t (Yr 7) EBITDA = None /\
      cell t (Yr 7) TaxableIncome = None /\
      cell t (Yr 7) TaxBenefitLiability = None /\
      exists u a, t = round_frame u /\
        cell u (Yr 7) AfterTaxNetEquityCashFlow = Some a /\ a == - pmt
  | _, _ => False
  end.
Proof.
  assert (Hs : forall r, In r Scenario.sim_gap -> op_year r <> 7%Z).
  { intros r Hr. unfold Scenario.sim_gap in Hr.
    apply in_map_iff in Hr as (y & <- & Hy).
    apply in_app_or in Hy as [Hy|Hy]; apply in_range in Hy; cbn; lia. }
  split; [exact Hs|].
  destruct (calculate_pro_forma Scenario.sim_gap Scenario.base) as [t|e] eqn:E1;
    [|not_err E1].
  destruct (fixed_debt_payment Scenario.base) as [pmt|e] eqn:E2; [|not_err E2].
  apply (missing_simulation_year Scenario.sim_gap Scenario.base t pmt 7 E1 E2);
    [lia | exact Hs].
Defined.
